(** * NetShare field codecs ([netshare/utils/field.py])

    A shallow embedding of the three field classes, [ContinuousField],
    [DiscreteField] and [BitField], together with the fragments of the
    Python built-ins, numpy and pandas that their methods call.

    Conventions of the embedding:
    - a Python [int] is a [Z]; a [str] is a [string];
    - a method that can raise returns a [result], whose [Raise] carries
      the exception class and its message;
    - numbers come in two forms.  Where only the checks, the shapes, the
      comparisons of an arg-max or the special values (inf, NaN) matter,
      a float is an exact rational or one of the three IEEE specials
      (type [npfloat]): no rounding enters those statements.  The
      numerics of ContinuousField are stated on binary64, the arithmetic
      numpy performs ([ContinuousField64], on primitive floats);
    - an [ndarray] is a shape and a flat row-major buffer. *)

From Stdlib Require Import ZArith List String Ascii Bool Lia.
From Stdlib Require Import QArith Qcanon Field.
From Stdlib Require Import DecimalString.
From Stdlib Require Floats.
Import ListNotations.

(** A decimal float literal stands for the nearest binary64 value, as in
    Python. *)
Set Warnings "-inexact-float".

Local Open Scope string_scope.
Local Open Scope Z_scope.

(** ** Exceptions and results *)

Inductive exn : Type :=
| ValueError (msg : string)
| IndexError (msg : string)
| AssertionError (msg : string)
| Exception (msg : string).

Inductive result (A : Type) : Type :=
| Ok (a : A)
| Raise (e : exn).

Arguments Ok {A} a.
Arguments Raise {A} e.

Definition bind {A B : Type} (m : result A) (k : A -> result B) : result B :=
  match m with
  | Ok a => k a
  | Raise e => Raise e
  end.

Notation "x <- m ;; k" := (bind m (fun x => k))
  (at level 61, m at next level, right associativity).

(** [raises m]: the call ended in an exception, whichever it is. *)
Definition raises {A : Type} (m : result A) : Prop :=
  exists e, m = Raise e.

(** Sequencing over a list, left to right, stopping at the first raise
    (a list comprehension whose element expression can raise). *)
Fixpoint mapM {A B : Type} (f : A -> result B) (l : list A) : result (list B) :=
  match l with
  | [] => Ok []
  | a :: l' => b <- f a ;; bs <- mapM f l' ;; Ok (b :: bs)
  end.

(** The base class [Field] only stores [name]; its three methods raise
    NotImplementedError and every subclass below overrides them, so each
    record carries [name] and the base class has no definition of its own. *)

(** ** Python built-ins *)

Module Py.

(** [str(n)] for an int. *)
Definition str (n : Z) : string := NilZero.string_of_int (Z.to_int n).

(** [range(n)]: empty when [n <= 0]. *)
Definition range (n : Z) : list Z := map Z.of_nat (seq 0 (Z.to_nat n)).

(** Binary digits of a positive number, most significant first. *)
Fixpoint bin_digits (p : positive) : string :=
  match p with
  | xH => "1"
  | xO p' => bin_digits p' ++ "0"
  | xI p' => bin_digits p' ++ "1"
  end.

(** [bin(n)]. *)
Definition bin (n : Z) : string :=
  match n with
  | Z0 => "0b0"
  | Zpos p => "0b" ++ bin_digits p
  | Zneg p => "-0b" ++ bin_digits p
  end.

(** [s[k:]] for [k >= 0]. *)
Fixpoint drop (k : nat) (s : string) : string :=
  match k, s with
  | O, _ => s
  | S k', String _ s' => drop k' s'
  | S _, EmptyString => EmptyString
  end.

Fixpoint zeros (k : nat) : string :=
  match k with
  | O => EmptyString
  | S k' => String "0" (zeros k')
  end.

(** [s.zfill(width)]: pads with ['0'] on the left up to [width]; a leading
    sign stays in front of the padding; a string already that long is
    returned as it is. *)
Definition zfill (s : string) (width : Z) : string :=
  let len := Z.of_nat (String.length s) in
  if width <=? len then s
  else
    let pad := zeros (Z.to_nat (width - len)) in
    match s with
    | String c s' =>
        if (Ascii.eqb c "+" || Ascii.eqb c "-")%bool
        then String c (pad ++ s')
        else pad ++ s
    | EmptyString => pad
    end.

Definition chars (s : string) : list ascii := list_ascii_of_string s.

(** [int(c)] for a one-character string: a decimal digit, or ValueError. *)
Definition int_of_char (c : ascii) : result Z :=
  let n := Z.of_nat (nat_of_ascii c) in
  if ((48 <=? n) && (n <=? 57))%bool then Ok (n - 48)
  else Raise (ValueError
         ("invalid literal for int() with base 10: '" ++ String c "'")).

(** Value of a string of binary digits read most significant first, with
    accumulator; [None] at a character that is not a binary digit. *)
Fixpoint bits_value (acc : Z) (s : string) : option Z :=
  match s with
  | EmptyString => Some acc
  | String c s' =>
      if Ascii.eqb c "0" then bits_value (2 * acc) s'
      else if Ascii.eqb c "1" then bits_value (2 * acc + 1) s'
      else None
  end.

(** [int(s, 2)] on an unsigned literal: an optional [0b] prefix, then at
    least one binary digit.  (Signs, blanks and underscores, which Python
    also accepts, do not occur in the strings built here.) *)
Definition int_base2 (s : string) : result Z :=
  let err := Raise (ValueError
               ("invalid literal for int() with base 2: '" ++ s ++ "'")) in
  let digits :=
    match s with
    | String "0" (String "b" r) => r
    | _ => s
    end in
  match digits with
  | EmptyString => err
  | _ => match bits_value 0 digits with
         | Some v => Ok v
         | None => err
         end
  end.

End Py.

(** ** numpy: floats, arrays, argmax *)

Module Np.

(** A float64 value, abstractly: an exact rational, or an IEEE special.
    The operations below do not round and do not overflow; they are used
    where a statement rests on the checks, on comparisons or on the rules
    of the special values.  Rounding and overflow are those of
    [ContinuousField64]. *)
Inductive npfloat : Type :=
| Fin (q : Qc)
| PInf
| NInf
| NaN.

Definition two : Qc := Q2Qc 2.

(** The infinity whose sign is that of a comparison with zero; [NaN] when
    the compared number is zero. *)
Definition sign_inf (c : comparison) : npfloat :=
  match c with
  | Gt => PInf
  | Lt => NInf
  | Eq => NaN
  end.

Definition fopp (x : npfloat) : npfloat :=
  match x with
  | Fin q => Fin (- q)%Qc
  | PInf => NInf
  | NInf => PInf
  | NaN => NaN
  end.

Definition fadd (x y : npfloat) : npfloat :=
  match x, y with
  | NaN, _ | _, NaN => NaN
  | Fin a, Fin b => Fin (a + b)%Qc
  | PInf, NInf | NInf, PInf => NaN
  | PInf, _ | _, PInf => PInf
  | NInf, _ | _, NInf => NInf
  end.

Definition fsub (x y : npfloat) : npfloat := fadd x (fopp y).

Definition fmul (x y : npfloat) : npfloat :=
  match x, y with
  | NaN, _ | _, NaN => NaN
  | Fin a, Fin b => Fin (a * b)%Qc
  | PInf, Fin b | Fin b, PInf => sign_inf (b ?= 0)%Qc
  | NInf, Fin b | Fin b, NInf => sign_inf (0 ?= b)%Qc
  | PInf, PInf | NInf, NInf => PInf
  | PInf, NInf | NInf, PInf => NInf
  end.

(** Division of arrays does not raise: a zero divisor gives an infinity
    with the sign of the dividend, and [0/0] gives [NaN] (numpy only warns). *)
Definition fdiv (x y : npfloat) : npfloat :=
  match x, y with
  | NaN, _ | _, NaN => NaN
  | Fin a, Fin b =>
      if Qc_eq_dec b 0 then sign_inf (a ?= 0)%Qc else Fin (a / b)%Qc
  | Fin _, PInf | Fin _, NInf => Fin 0%Qc
  | PInf, Fin b => match (b ?= 0)%Qc with Lt => NInf | _ => PInf end
  | NInf, Fin b => match (b ?= 0)%Qc with Lt => PInf | _ => NInf end
  | PInf, PInf | PInf, NInf | NInf, PInf | NInf, NInf => NaN
  end.

Definition is_nan (x : npfloat) : bool :=
  match x with
  | NaN => true
  | _ => false
  end.

(** [x <= y] on floats: false as soon as one side is [NaN]. *)
Definition fle (x y : npfloat) : bool :=
  match x, y with
  | NaN, _ | _, NaN => false
  | NInf, _ | _, PInf => true
  | Fin a, Fin b => match (a ?= b)%Qc with Gt => false | _ => true end
  | PInf, _ | _, NInf => false
  end.

(** The scan of numpy's argmax: [mp] is the running maximum, [best] its
    index, [i] the index of the head of the rest.  An element replaces the
    maximum when it is not [<=] it; the scan stops at a [NaN]. *)
Fixpoint argmax_from (mp : npfloat) (best i : nat) (l : list npfloat) : nat :=
  match l with
  | [] => best
  | x :: l' =>
      if is_nan mp then best
      else if fle x mp then argmax_from mp best (S i) l'
      else argmax_from x i (S i) l'
  end.

(** [np.argmax] of a one-dimensional sequence. *)
Definition argmax (l : list npfloat) : result nat :=
  match l with
  | [] => Raise (ValueError "attempt to get argmax of an empty sequence")
  | x :: l' => Ok (argmax_from x 0 1 l')
  end.

Record ndarray (A : Type) : Type := mk_ndarray {
  shape : list nat;
  data : list A
}.

Arguments mk_ndarray {A} shape data.
Arguments shape {A} n.
Arguments data {A} n.

Definition size_of (shp : list nat) : nat := fold_right Nat.mul 1%nat shp.

(** The buffer holds as many elements as the shape says. *)
Definition wf {A : Type} (a : ndarray A) : Prop :=
  List.length (data a) = size_of (shape a).

Fixpoint last_opt (shp : list nat) : option nat :=
  match shp with
  | [] => None
  | [d] => Some d
  | _ :: shp' => last_opt shp'
  end.

(** [a.shape[-1]]: the shape of a zero-dimensional array is the empty
    tuple, and indexing it raises. *)
Definition shape_last {A : Type} (a : ndarray A) : result nat :=
  match last_opt (shape a) with
  | Some d => Ok d
  | None => Raise (IndexError "tuple index out of range")
  end.

(** An element-wise operation keeps the shape. *)
Definition nd_map {A B : Type} (f : A -> B) (a : ndarray A) : ndarray B :=
  mk_ndarray (shape a) (map f (data a)).

(** Row [i] of width [d] in a row-major buffer. *)
Definition row {A : Type} (d : nat) (buf : list A) (i : nat) : list A :=
  firstn d (skipn (i * d) buf).

(** [np.argmax(a, axis=-1)]: a zero-dimensional array is read as one row
    with one element; a last axis of length zero raises. *)
Definition argmax_last_axis (a : ndarray npfloat) : result (ndarray nat) :=
  let shp := match shape a with [] => [1%nat] | s => s end in
  let d := last shp 1%nat in
  if Nat.eqb d 0 then
    Raise (ValueError "attempt to get argmax of an empty sequence")
  else
    idx <- mapM (fun i => argmax (row d (data a) i))
                (seq 0 (size_of (removelast shp))) ;;
    Ok (mk_ndarray (removelast (shape a)) idx).

(** [np.asarray(l)[index]] with an array of non-negative indices. *)
Definition take {A : Type} (l : list A) (index : ndarray nat)
  : result (ndarray A) :=
  vals <- mapM (fun i =>
            match nth_error l i with
            | Some v => Ok v
            | None =>
                Raise (IndexError
                  ("index " ++ Py.str (Z.of_nat i)
                   ++ " is out of bounds for axis 0 with size "
                   ++ Py.str (Z.of_nat (List.length l))))
            end) (data index) ;;
  Ok (mk_ndarray (shape index) vals).

End Np.

Import Np.

(** ** The output descriptors ([netshare/utils/output.py]) *)

(** Modelled from the spec: the enumeration [Normalization] lives in
    [output.py], which this development does not have; the spec gives it
    as the closed set of the two modes. *)
Inductive Normalization : Type := ZERO_ONE | MINUSONE_ONE.

(** Modelled from the spec: the enumeration [OutputType] of [output.py],
    the kind of a descriptor. *)
Inductive OutputType : Type := CONTINUOUS | DISCRETE.

(** Modelled from the spec: the class [Output] of [output.py], a descriptor
    with a kind, a width and, for continuous outputs only, a normalization
    mode ([None] when the keyword is not given). *)
Record Output : Type := mk_Output {
  type_ : OutputType;
  dim : Z;
  normalization : option Normalization
}.

(** ** pandas: categorical columns and dummies *)

Module Pd.

Fixpoint mem (v : string) (l : list string) : bool :=
  match l with
  | [] => false
  | c :: l' => (String.eqb c v || mem v l')%bool
  end.

Fixpoint is_unique (l : list string) : bool :=
  match l with
  | [] => true
  | c :: l' => (negb (mem c l') && is_unique l')%bool
  end.

(** [pd.CategoricalDtype(categories=cats)]: the categories of a dtype are
    unique, the constructor refuses a list with a repeated label. *)
Definition CategoricalDtype (cats : list string) : result (list string) :=
  if is_unique cats then Ok cats
  else Raise (ValueError "Categorical categories must be unique").

(** The code of a value in a categorical column: its position among the
    categories, or [None] (a missing value) when it is not one of them. *)
Fixpoint code (cats : list string) (v : string) : option nat :=
  match cats with
  | [] => None
  | c :: cats' =>
      if String.eqb c v then Some O
      else option_map S (code cats' v)
  end.

(** [pd.DataFrame(values).astype(dtype)], one column. *)
Definition astype (cats : list string) (values : list string)
  : list (option nat) :=
  map (code cats) values.

(** One row of [pd.get_dummies]: a column per category, in the order of the
    categories, set where the code points; a missing value sets none. *)
Definition dummies_row (cats : list string) (c : option nat) : list npfloat :=
  map (fun j =>
         match c with
         | Some k => if Nat.eqb j k then Fin 1%Qc else Fin 0%Qc
         | None => Fin 0%Qc
         end)
      (seq 0 (List.length cats)).

(** [pd.get_dummies(frame).to_numpy()] for a one-column categorical frame
    with at least one row. *)
Definition get_dummies (cats : list string) (column : list (option nat))
  : ndarray npfloat :=
  mk_ndarray [List.length column; List.length cats]
             (List.concat (map (dummies_row cats) column)).

End Pd.

(** [a[0]] on an array. *)
Definition nd_first {A : Type} (a : ndarray A) : result (ndarray A) :=
  match shape a with
  | [] => Raise (IndexError "too many indices for array")
  | n :: rest =>
      if Nat.eqb n 0
      then Raise (IndexError "index 0 is out of bounds for axis 0 with size 0")
      else Ok (mk_ndarray rest (firstn (size_of rest) (data a)))
  end.

(** ** ContinuousField

    The two methods with their checks, and their formulas read over exact
    arithmetic with the IEEE specials; the bounds are numbers (the
    constructor's default [None] is not a bound). *)

Module ContinuousField.

(** [norm_option] is [None] when the constructor was given something that
    is neither member of [Normalization]. *)
Record t : Type := mk {
  name : string;
  norm_option : option Normalization;
  min_x : Qc;
  max_x : Qc;
  dim_x : Z
}.

Definition dimension_msg (got : nat) (expected : Z) : string :=
  "Dimension is " ++ Py.str (Z.of_nat got) ++ ". "
  ++ "Expected dimension is " ++ Py.str expected.

(** [(x - min_x) / (max_x - min_x)] *)
Definition zero_one (f : t) (x : npfloat) : npfloat :=
  fdiv (fsub x (Fin (min_x f))) (fsub (Fin (max_x f)) (Fin (min_x f))).

(** [2 * (x - min_x) / (max_x - min_x) - 1] *)
Definition minusone_one (f : t) (x : npfloat) : npfloat :=
  fsub (fdiv (fmul (Fin two) (fsub x (Fin (min_x f))))
             (fsub (Fin (max_x f)) (Fin (min_x f))))
       (Fin 1%Qc).

Definition normalize (f : t) (x : ndarray npfloat) : result (ndarray npfloat) :=
  d <- shape_last x ;;
  if negb (Z.of_nat d =? dim_x f) then
    Raise (ValueError (dimension_msg d (dim_x f)))
  else
    match norm_option f with
    | Some ZERO_ONE => Ok (nd_map (zero_one f) x)
    | Some MINUSONE_ONE => Ok (nd_map (minusone_one f) x)
    | None => Raise (Exception "Not valid normalization option!")
    end.

(** [norm_x * float(max_x - min_x) + min_x] *)
Definition inv_zero_one (f : t) (y : npfloat) : npfloat :=
  fadd (fmul y (fsub (Fin (max_x f)) (Fin (min_x f)))) (Fin (min_x f)).

(** [(norm_x + 1) / 2.0 * float(max_x - min_x) + min_x] *)
Definition inv_minusone_one (f : t) (y : npfloat) : npfloat :=
  fadd (fmul (fdiv (fadd y (Fin 1%Qc)) (Fin two))
             (fsub (Fin (max_x f)) (Fin (min_x f))))
       (Fin (min_x f)).

Definition denormalize (f : t) (norm_x : ndarray npfloat)
  : result (ndarray npfloat) :=
  d <- shape_last norm_x ;;
  if negb (Z.of_nat d =? dim_x f) then
    Raise (ValueError (dimension_msg d (dim_x f)))
  else
    match norm_option f with
    | Some ZERO_ONE => Ok (nd_map (inv_zero_one f) norm_x)
    | Some MINUSONE_ONE => Ok (nd_map (inv_minusone_one f) norm_x)
    | None => Raise (Exception "Not valid normalization option!")
    end.

Definition getOutputType (f : t) : Output :=
  mk_Output CONTINUOUS (dim_x f) (norm_option f).

End ContinuousField.

(** ** ContinuousField on binary64

    The same two methods with the arithmetic of the machine.  The bounds
    are Python floats and the array has dtype float64, so every operation
    is the IEEE 754 binary64 one, rounded to nearest even, the one numpy
    performs (Rocq's primitive floats); the literals [2], [1] and [2.0]
    are the floats of those values and [float(max_x - min_x)] is the
    identity on a float.  The checks before the arithmetic are those of
    [ContinuousField]. *)

Module ContinuousField64.

Import PrimFloat.

Record t : Type := mk {
  name : string;
  norm_option : option Normalization;
  min_x : float;
  max_x : float;
  dim_x : Z
}.

(** [(x - min_x) / (max_x - min_x)] *)
Definition zero_one (f : t) (x : float) : float :=
  ((x - min_x f) / (max_x f - min_x f))%float.

(** [2 * (x - min_x) / (max_x - min_x) - 1] *)
Definition minusone_one (f : t) (x : float) : float :=
  (2 * (x - min_x f) / (max_x f - min_x f) - 1)%float.

Definition normalize (f : t) (x : ndarray float) : result (ndarray float) :=
  d <- shape_last x ;;
  if negb (Z.of_nat d =? dim_x f) then
    Raise (ValueError (ContinuousField.dimension_msg d (dim_x f)))
  else
    match norm_option f with
    | Some ZERO_ONE => Ok (nd_map (zero_one f) x)
    | Some MINUSONE_ONE => Ok (nd_map (minusone_one f) x)
    | None => Raise (Exception "Not valid normalization option!")
    end.

(** [norm_x * float(max_x - min_x) + min_x] *)
Definition inv_zero_one (f : t) (y : float) : float :=
  (y * (max_x f - min_x f) + min_x f)%float.

(** [(norm_x + 1) / 2.0 * float(max_x - min_x) + min_x] *)
Definition inv_minusone_one (f : t) (y : float) : float :=
  ((y + 1) / 2 * (max_x f - min_x f) + min_x f)%float.

Definition denormalize (f : t) (norm_x : ndarray float)
  : result (ndarray float) :=
  d <- shape_last norm_x ;;
  if negb (Z.of_nat d =? dim_x f) then
    Raise (ValueError (ContinuousField.dimension_msg d (dim_x f)))
  else
    match norm_option f with
    | Some ZERO_ONE => Ok (nd_map (inv_zero_one f) norm_x)
    | Some MINUSONE_ONE => Ok (nd_map (inv_minusone_one f) norm_x)
    | None => Raise (Exception "Not valid normalization option!")
    end.

End ContinuousField64.

(** ** DiscreteField *)

Module DiscreteField.

Record t : Type := mk {
  name : string;
  choices : list string
}.

Definition dim_x (f : t) : Z := Z.of_nat (List.length (choices f)).

(** The argument of [normalize]: one label, or a list (or one-dimensional
    array) of labels, here with its first element apart: the frame built
    from it has at least one row. *)
Inductive value : Type :=
| Scalar (v : string)
| Seq (v : string) (vs : list string).

Definition is_sequence (x : value) : bool :=
  match x with
  | Scalar _ => false
  | Seq _ _ => true
  end.

Definition normalize (f : t) (x : value) : result (ndarray npfloat) :=
  let norm_x :=
    match x with
    | Scalar v => [v]
    | Seq v vs => v :: vs
    end in
  dtype <- Pd.CategoricalDtype (choices f) ;;
  let norm_x := Pd.astype dtype norm_x in
  let norm_x := Pd.get_dummies dtype norm_x in
  if negb (is_sequence x) then nd_first norm_x
  else Ok norm_x.

Definition denormalize (f : t) (norm_x : ndarray npfloat)
  : result (ndarray string) :=
  index <- argmax_last_axis norm_x ;;
  take (choices f) index.

Definition getOutputType (f : t) : Output :=
  mk_Output DISCRETE (Z.of_nat (List.length (choices f))) None.

End DiscreteField.

(** ** BitField *)

Module BitField.

Record t : Type := mk {
  name : string;
  num_bits : Z
}.

Definition dim_x (f : t) : Z := num_bits f * 2.

(** One turn of the loop of [normalize]: the state is the list [bits] and
    the lines printed so far. *)
Definition normalize_step (st : list npfloat * list string) (b : Z)
  : list npfloat * list string :=
  let (bits, out) := st in
  if b =? 0 then ((bits ++ [Fin 1%Qc; Fin 0%Qc])%list, out)
  else if b =? 1 then ((bits ++ [Fin 0%Qc; Fin 1%Qc])%list, out)
  else (bits, (out ++ ["Binary number is zero or one!"])%list).

(** [decimal_x] is an int, on which [int(decimal_x)] is the identity.
    Returns the list [bits] and what was printed. *)
Definition normalize (f : t) (decimal_x : Z)
  : result (list npfloat * list string) :=
  let bin_x := Py.zfill (Py.drop 2 (Py.bin decimal_x)) (num_bits f) in
  bin_x <- mapM Py.int_of_char (Py.chars bin_x) ;;
  Ok (fold_left normalize_step bin_x ([], [])).

(** What [denormalize] can be handed: a Python list, or an array. *)
Inductive pyobj : Type :=
| PyList (l : list npfloat)
| PyArray (a : ndarray npfloat).

(** [l[a:b]] for [0 <= a <= b]. *)
Definition slice {A : Type} (l : list A) (a b : Z) : list A :=
  firstn (Z.to_nat (b - a)) (skipn (Z.to_nat a) l).

Definition denormalize_step (bin_x : list npfloat) (bits : string) (i : Z)
  : result string :=
  index <- argmax (slice bin_x (2 * i) (2 * (i + 1))) ;;
  if Nat.eqb index 0 then Ok (bits ++ "0")
  else if Nat.eqb index 1 then Ok (bits ++ "1")
  else Raise (Exception "Bits array is ZERO or ONE!").

Fixpoint denormalize_loop (bin_x : list npfloat) (bits : string) (idxs : list Z)
  : result string :=
  match idxs with
  | [] => Ok bits
  | i :: idxs' =>
      bits' <- denormalize_step bin_x bits i ;;
      denormalize_loop bin_x bits' idxs'
  end.

(** The type test, the assertion on the length, the loop over
    [range(num_bits)] and the final [int(bits, 2)]. *)
Definition denormalize (f : t) (bin_x : pyobj) : result Z :=
  match bin_x with
  | PyArray _ => Raise (Exception "Bit array should be a list")
  | PyList l =>
      if negb (Z.of_nat (List.length l) =? 2 * num_bits f) then
        Raise (AssertionError "length of bit array is wrong!")
      else
        bits <- denormalize_loop l "0b" (Py.range (num_bits f)) ;;
        Py.int_base2 bits
  end.

Definition getOutputType (f : t) : list Output :=
  fold_left (fun outputs _ => (outputs ++ [mk_Output DISCRETE 2 None])%list)
            (Py.range (num_bits f)) [].

End BitField.

(** ** Definitions used by the statements *)

(** The element-wise forward and backward maps of a mode. *)
Definition forward (f : ContinuousField.t) (m : Normalization)
  : npfloat -> npfloat :=
  match m with
  | ZERO_ONE => ContinuousField.zero_one f
  | MINUSONE_ONE => ContinuousField.minusone_one f
  end.

Definition backward (f : ContinuousField.t) (m : Normalization)
  : npfloat -> npfloat :=
  match m with
  | ZERO_ONE => ContinuousField.inv_zero_one f
  | MINUSONE_ONE => ContinuousField.inv_minusone_one f
  end.

(** Sample fields and inputs. *)
Definition unit_interval (m : Normalization) : ContinuousField.t :=
  ContinuousField.mk "x" (Some m) 0%Qc (Q2Qc 10) 1.

Definition wide_field : ContinuousField.t :=
  ContinuousField.mk "xy" (Some ZERO_ONE) 0%Qc (Q2Qc 10) 2.

Definition degenerate (m : Normalization) : ContinuousField.t :=
  ContinuousField.mk "x" (Some m) (Q2Qc 5) (Q2Qc 5) 1.

Definition vec (l : list npfloat) : ndarray npfloat :=
  mk_ndarray [List.length l] l.

(** Binary numerals as lists of bits, most significant first. *)
Fixpoint pos_bits (p : positive) : list bool :=
  match p with
  | xH => [true]
  | xO p' => (pos_bits p' ++ [false])%list
  | xI p' => (pos_bits p' ++ [true])%list
  end.

(** The digits that [bin] prints for a number that is not negative. *)
Definition bits_of_Z (d : Z) : list bool :=
  match d with
  | Zpos p => pos_bits p
  | _ => [false]
  end.

(** The digits, zero-padded on the left to [n] places. *)
Definition padded (n : Z) (d : Z) : list bool :=
  (repeat false (Z.to_nat (n - Z.of_nat (List.length (bits_of_Z d))))
   ++ bits_of_Z d)%list.

Definition char_of_bit (b : bool) : ascii := if b then "1"%char else "0"%char.

Fixpoint str_of_bits (bs : list bool) : string :=
  match bs with
  | [] => EmptyString
  | b :: bs' => String (char_of_bit b) (str_of_bits bs')
  end.

(** The base-two value of a list of bits, with accumulator. *)
Definition bits_val (acc : Z) (bs : list bool) : Z :=
  fold_left (fun a b => 2 * a + Z.b2z b) bs acc.

(** The pair that stands for one bit: [[1.0, 0.0]] for 0 and
    [[0.0, 1.0]] for 1. *)
Definition onehot (b : bool) : list npfloat :=
  if b then [Fin 0%Qc; Fin 1%Qc] else [Fin 1%Qc; Fin 0%Qc].

Definition bit4 : BitField.t := BitField.mk "flag" 4.
Definition bit3 : BitField.t := BitField.mk "flag" 3.
Definition bit0 : BitField.t := BitField.mk "flag" 0.

(** numpy's order for a maximum: [v] ranks at least as high as [w] when
    [w <= v], and a NaN ranks above everything. *)
Definition fge_np (v w : npfloat) : bool := (is_nan v || fle w v)%bool.

(** [i] is the arg-max of the row [r], ties broken by the lowest index:
    the entry at [i] ranks at least as high as every entry, and no entry
    before [i] ranks as high as it. *)
Definition is_argmax (r : list npfloat) (i : nat) : Prop :=
  exists v,
    nth_error r i = Some v
    /\ (forall j w, nth_error r j = Some w -> fge_np v w = true)
    /\ (forall j w, (j < i)%nat -> nth_error r j = Some w ->
          fge_np w v = false).

Definition abc : DiscreteField.t := DiscreteField.mk "proto" ["a"; "b"; "c"].
Definition only_a : DiscreteField.t := DiscreteField.mk "proto" ["a"].

(** ** Definitions used by the further properties *)

(** The labels that [DiscreteField.normalize] is given, in order. *)
Definition values (x : DiscreteField.value) : list string :=
  match x with
  | DiscreteField.Scalar v => [v]
  | DiscreteField.Seq v vs => v :: vs
  end.

(** The one-hot row of a label over a vocabulary: 1 in the columns whose
    category is the label, 0 elsewhere. *)
Definition one_hot_row (cats : list string) (v : string) : list npfloat :=
  map (fun c => if String.eqb c v then Fin 1%Qc else Fin 0%Qc) cats.

(** The bit that a pair of scores stands for: 1 when the second entry
    ranks strictly above the first, 0 otherwise. *)
Definition pair_bit (a b : npfloat) : bool := negb (fge_np a b).

(** The bits of a flat list of pairs, in order. *)
Fixpoint pair_bits (l : list npfloat) : list bool :=
  match l with
  | a :: b :: r => pair_bit a b :: pair_bits r
  | _ => []
  end.

(** Further sample fields. *)
Definition no_mode : ContinuousField.t :=
  ContinuousField.mk "x" None 0%Qc (Q2Qc 10) 1.

Definition dup_vocab : DiscreteField.t :=
  DiscreteField.mk "proto" ["a"; "b"; "a"].

Definition empty_vocab : DiscreteField.t := DiscreteField.mk "proto" [].

(** ** Definitions used by the statements on binary64 *)

Section Float64Definitions.

Import PrimFloat.






(** Sample fields on binary64. *)
Definition unit64 (m : Normalization) : ContinuousField64.t :=
  ContinuousField64.mk "x" (Some m) 0%float 10%float 1.




End Float64Definitions.

(** * Theorems *)

(** ** Rational arithmetic *)

Section QcFacts.

Local Open Scope Qc_scope.


Lemma Qc_two_eq : two = 1 + 1.
Proof. apply Qc_is_canon. reflexivity. Qed.

Lemma Qc_two_pos : 0 < two.
Proof. reflexivity. Qed.

Lemma Qc_gap_pos (lo hi : Qc) : lo < hi -> 0 < hi + - lo.
Proof. intro H. exact (proj1 (Qclt_minus_iff lo hi) H). Qed.




Lemma Qc_mult_pos (a b : Qc) : 0 < a -> 0 < b -> 0 < a * b.
Proof.
  intros Ha Hb. rewrite <- (Qcmult_0_l b). now apply Qcmult_lt_compat_r.
Qed.

Lemma Qc_inv_pos (a : Qc) : 0 < a -> 0 < / a.
Proof.
  intro Ha. unfold Qclt in *. simpl in *. rewrite Qred_correct.
  now apply Qinv_lt_0_compat.
Qed.

Lemma Qc_compare_sub (a b : Qc) : (a + - b ?= 0) = (a ?= b).
Proof.
  destruct (a ?= b) eqn:E.
  - apply Qceq_alt in E. subst. apply Qceq_alt. ring.
  - apply Qclt_alt in E. apply Qclt_alt. apply Qclt_minus_iff.
    replace (0 + - (a + - b)) with (b + - a) by ring.
    now apply Qc_gap_pos.
  - apply Qcgt_alt in E. apply Qcgt_alt. now apply Qc_gap_pos.
Qed.

Lemma Qc_compare_double_sub (a b : Qc) : (two * (a + - b) ?= 0) = (a ?= b).
Proof.
  rewrite <- (Qc_compare_sub a b).
  destruct (a + - b ?= 0) eqn:E.
  - apply Qceq_alt in E. rewrite E. apply Qceq_alt. ring.
  - apply Qclt_alt in E. apply Qclt_alt. apply Qclt_minus_iff.
    apply Qclt_minus_iff in E.
    replace (0 + - (two * (a + - b))) with (two * (0 + - (a + - b))) by ring.
    apply Qc_mult_pos; [apply Qc_two_pos | exact E].
  - apply Qcgt_alt in E. apply Qcgt_alt.
    apply Qc_mult_pos; [apply Qc_two_pos | exact E].
Qed.

End QcFacts.

(** ** ContinuousField *)

Section Continuous.

Import ContinuousField.
Local Open Scope Qc_scope.

Ltac np_unfold :=
  unfold forward, backward, zero_one, minusone_one,
         inv_zero_one, inv_minusone_one;
  cbn [fadd fsub fmul fopp].





(** Both methods, once the dimension check passes and the mode is valid. *)
Lemma normalize_matching (f : t) (m : Normalization) (x : ndarray npfloat)
    (d : nat) :
  shape_last x = Ok d -> Z.of_nat d = dim_x f -> norm_option f = Some m ->
  normalize f x = Ok (nd_map (forward f m) x).
Proof.
  intros Hs Hd Hm. unfold normalize. rewrite Hs. cbn [bind].
  rewrite Hd, Z.eqb_refl, Hm. cbn [negb]. now destruct m.
Qed.

Lemma denormalize_matching (f : t) (m : Normalization) (y : ndarray npfloat)
    (d : nat) :
  shape_last y = Ok d -> Z.of_nat d = dim_x f -> norm_option f = Some m ->
  denormalize f y = Ok (nd_map (backward f m) y).
Proof.
  intros Hs Hd Hm. unfold denormalize. rewrite Hs. cbn [bind].
  rewrite Hd, Z.eqb_refl, Hm. cbn [negb]. now destruct m.
Qed.

Lemma shape_last_nd_map {A B : Type} (g : A -> B) (x : ndarray A) :
  shape_last (nd_map g x) = shape_last x.
Proof. reflexivity. Qed.



(** C6. Dimension check of ContinuousField: with [d] the trailing dimension
    of the input, [normalize] and [denormalize] both raise the dimension
    error (a ValueError) when [d] differs from the width of the field, and
    both go on to the arithmetic of the mode when it is equal. *)
Theorem continuous_dimension_check (f : t) (x : ndarray npfloat) (d : nat)
    (Hshape : shape_last x = Ok d) :
  (Z.of_nat d <> dim_x f ->
     normalize f x = Raise (ValueError (dimension_msg d (dim_x f)))
     /\ denormalize f x = Raise (ValueError (dimension_msg d (dim_x f))))
  /\ (Z.of_nat d = dim_x f ->
      forall m, norm_option f = Some m ->
        normalize f x = Ok (nd_map (forward f m) x)
        /\ denormalize f x = Ok (nd_map (backward f m) x)).
Proof.
  split.
  - intro Hne. apply Z.eqb_neq in Hne.
    unfold normalize, denormalize. rewrite Hshape. cbn [bind].
    rewrite Hne. cbn [negb]. split; reflexivity.
  - intros Heq m Hm. split.
    + now apply normalize_matching with (d := d).
    + now apply denormalize_matching with (d := d).
Qed.

Lemma continuous_dimension_check_witness :
  normalize wide_field (vec [Fin 1])
    = Raise (ValueError "Dimension is 1. Expected dimension is 2")
  /\ denormalize wide_field (vec [Fin 1])
    = Raise (ValueError "Dimension is 1. Expected dimension is 2")
  /\ normalize wide_field (vec [Fin 1; Fin 1])
    = Ok (nd_map (forward wide_field ZERO_ONE) (vec [Fin 1; Fin 1]))
  /\ denormalize wide_field (vec [Fin 1; Fin 1])
    = Ok (nd_map (backward wide_field ZERO_ONE) (vec [Fin 1; Fin 1])).
Proof.
  destruct (continuous_dimension_check wide_field (vec [Fin 1]) 1%nat
              eq_refl) as [Hbad _].
  destruct (continuous_dimension_check wide_field (vec [Fin 1; Fin 1]) 2%nat
              eq_refl) as [_ Hgood].
  destruct (Hbad ltac:(discriminate)) as [Hn Hd].
  destruct (Hgood eq_refl ZERO_ONE eq_refl) as [Hn' Hd'].
  repeat split; assumption.
Defined.

(** *** The degenerate range [max_x = min_x] *)

Lemma forward_degenerate (f : t) (m : Normalization) (q : Qc) :
  max_x f = min_x f ->
  forward f m (Fin q) = sign_inf (q ?= min_x f).
Proof.
  intro H. assert (Hz : max_x f + - min_x f = 0) by (rewrite H; ring).
  destruct m; np_unfold; rewrite Hz; cbn [fdiv].
  - destruct (Qc_eq_dec 0 0) as [_ | N]; [| now elim N].
    now rewrite Qc_compare_sub.
  - destruct (Qc_eq_dec 0 0) as [_ | N]; [| now elim N].
    rewrite Qc_compare_double_sub. now destruct (q ?= min_x f).
Qed.





End Continuous.

(** ** Python strings of binary digits *)

Section Digits.

Lemma str_of_bits_app (l1 l2 : list bool) :
  str_of_bits (l1 ++ l2) = str_of_bits l1 ++ str_of_bits l2.
Proof.
  induction l1 as [| b l1 IH]; cbn [str_of_bits app String.append].
  - reflexivity.
  - now rewrite IH.
Qed.

Lemma str_of_bits_length (bs : list bool) :
  String.length (str_of_bits bs) = List.length bs.
Proof.
  induction bs as [| b bs IH]; cbn; [reflexivity | now rewrite IH].
Qed.

Lemma bin_digits_bits (p : positive) :
  Py.bin_digits p = str_of_bits (pos_bits p).
Proof.
  induction p as [p IH | p IH |]; cbn [Py.bin_digits pos_bits].
  - now rewrite IH, str_of_bits_app.
  - now rewrite IH, str_of_bits_app.
  - reflexivity.
Qed.

(** [bin(d)[2:]] for [d >= 0]. *)
Lemma bin_drop_nonneg (d : Z) :
  0 <= d -> Py.drop 2 (Py.bin d) = str_of_bits (bits_of_Z d).
Proof.
  intro H. destruct d as [| p | p].
  - reflexivity.
  - cbn. apply bin_digits_bits.
  - lia.
Qed.

Lemma zeros_bits (k : nat) : Py.zeros k = str_of_bits (repeat false k).
Proof.
  induction k as [| k IH]; cbn; [reflexivity | now rewrite IH].
Qed.

Lemma zfill_bits (bs : list bool) (n : Z) :
  bs <> [] ->
  Py.zfill (str_of_bits bs) n
  = str_of_bits (repeat false (Z.to_nat (n - Z.of_nat (List.length bs)))
                 ++ bs).
Proof.
  intro Hne. unfold Py.zfill. rewrite str_of_bits_length.
  destruct (n <=? Z.of_nat (List.length bs)) eqn:E.
  - apply Z.leb_le in E.
    replace (Z.to_nat (n - Z.of_nat (List.length bs))) with O by lia.
    reflexivity.
  - rewrite str_of_bits_app, zeros_bits.
    destruct bs as [| b bs]; [now elim Hne |].
    cbn [str_of_bits]. now destruct b.
Qed.

Lemma bits_of_Z_nonempty (d : Z) : bits_of_Z d <> [].
Proof.
  destruct d as [| p | p]; cbn; try discriminate.
  destruct p; cbn; try discriminate;
    intro E; apply app_eq_nil in E; destruct E; discriminate.
Qed.

(** The string that [normalize] hands to its loop. *)
Lemma zfill_bin (n d : Z) :
  0 <= d ->
  Py.zfill (Py.drop 2 (Py.bin d)) n = str_of_bits (padded n d).
Proof.
  intro H. rewrite bin_drop_nonneg by exact H.
  apply zfill_bits, bits_of_Z_nonempty.
Qed.

Lemma int_of_chars_bits (bs : list bool) :
  mapM Py.int_of_char (Py.chars (str_of_bits bs)) = Ok (map Z.b2z bs).
Proof.
  induction bs as [| b bs IH].
  - reflexivity.
  - cbn [str_of_bits Py.chars list_ascii_of_string mapM].
    fold (Py.chars (str_of_bits bs)). rewrite IH. now destruct b.
Qed.

Lemma bits_value_bits (bs : list bool) (acc : Z) :
  Py.bits_value acc (str_of_bits bs) = Some (bits_val acc bs).
Proof.
  revert acc. induction bs as [| b bs IH]; intro acc.
  - reflexivity.
  - cbn [str_of_bits Py.bits_value]. destruct b; cbn [char_of_bit].
    + cbn [Ascii.eqb Bool.eqb]. rewrite IH. unfold bits_val. cbn. reflexivity.
    + cbn [Ascii.eqb Bool.eqb]. rewrite IH. unfold bits_val. cbn [fold_left Z.b2z].
      now rewrite Z.add_0_r.
Qed.

Lemma int_base2_bits (bs : list bool) :
  bs <> [] ->
  Py.int_base2 ("0b" ++ str_of_bits bs) = Ok (bits_val 0 bs).
Proof.
  intro Hne. destruct bs as [| b bs]; [now elim Hne |].
  unfold Py.int_base2. cbn [String.append].
  rewrite bits_value_bits. now destruct b.
Qed.

End Digits.

(** ** Value and length of the digits *)

Section BitLists.

Lemma bits_val_app (acc : Z) (l1 l2 : list bool) :
  bits_val acc (l1 ++ l2) = bits_val (bits_val acc l1) l2.
Proof. unfold bits_val. apply fold_left_app. Qed.

Lemma bits_val_pos (p : positive) : bits_val 0 (pos_bits p) = Zpos p.
Proof.
  induction p as [p IH | p IH |]; cbn [pos_bits].
  - rewrite bits_val_app, IH. unfold bits_val. cbn [fold_left Z.b2z]. lia.
  - rewrite bits_val_app, IH. unfold bits_val. cbn [fold_left Z.b2z]. lia.
  - reflexivity.
Qed.

Lemma bits_val_zeros (k : nat) : bits_val 0 (repeat false k) = 0.
Proof.
  induction k as [| k IH]; [reflexivity |].
  cbn [repeat]. unfold bits_val in *. cbn [fold_left Z.b2z].
  exact IH.
Qed.

Lemma bits_val_of_Z (d : Z) : 0 <= d -> bits_val 0 (bits_of_Z d) = d.
Proof.
  intro H. destruct d as [| p | p]; [reflexivity | apply bits_val_pos | lia].
Qed.

Lemma bits_val_padded (n d : Z) : 0 <= d -> bits_val 0 (padded n d) = d.
Proof.
  intro H. unfold padded.
  now rewrite bits_val_app, bits_val_zeros, bits_val_of_Z.
Qed.

Lemma pos_bits_length (p : positive) :
  Z.of_nat (List.length (pos_bits p)) = Z.log2 (Zpos p) + 1.
Proof.
  assert (Hs : forall q, Z.of_nat (List.length (pos_bits q))
                         = Zpos (Pos.size q)).
  { induction q as [q IH | q IH |]; cbn [pos_bits Pos.size];
      rewrite ?length_app; cbn [List.length]; lia. }
  rewrite Hs. destruct p; cbn [Z.log2 Pos.size]; lia.
Qed.

Lemma bits_of_Z_length (d : Z) :
  0 <= d -> Z.of_nat (List.length (bits_of_Z d)) = Z.log2 d + 1.
Proof.
  intro H. destruct d as [| p | p];
    [reflexivity | apply pos_bits_length | lia].
Qed.

(** A number below [2^n] has at most [n] digits, for [n >= 1]. *)
Lemma digits_fit (n d : Z) :
  1 <= n -> 0 <= d < 2 ^ n -> Z.log2 d + 1 <= n.
Proof.
  intros Hn [H0 Hd]. destruct (Z.eq_dec d 0) as [-> | Hnz].
  - cbn. lia.
  - assert (Z.log2 d < n) by (apply Z.log2_lt_pow2; lia). lia.
Qed.

(** A number from [2^n] on has more than [n] digits. *)
Lemma digits_overflow (n d : Z) :
  0 <= n -> 2 ^ n <= d -> n < Z.log2 d + 1.
Proof.
  intros Hn Hd. assert (0 < 2 ^ n) by (apply Z.pow_pos_nonneg; lia).
  assert (n <= Z.log2 d) by (apply Z.log2_le_pow2; lia). lia.
Qed.

Lemma padded_length (n d : Z) :
  0 <= d ->
  Z.of_nat (List.length (padded n d)) = Z.max n (Z.log2 d + 1).
Proof.
  intro H. unfold padded. rewrite length_app, repeat_length.
  pose proof (bits_of_Z_length d H). lia.
Qed.

Lemma flat_map_onehot_length (bs : list bool) :
  List.length (flat_map onehot bs) = (2 * List.length bs)%nat.
Proof.
  induction bs as [| b bs IH]; [reflexivity |].
  cbn [flat_map]. rewrite length_app, IH. destruct b; cbn [onehot List.length]; lia.
Qed.

End BitLists.

(** ** BitField *)

Section Bit.

Import BitField.

Lemma normalize_loop_bits (bs : list bool) (acc : list npfloat)
    (out : list string) :
  fold_left normalize_step (map Z.b2z bs) (acc, out)
  = ((acc ++ flat_map onehot bs)%list, out).
Proof.
  revert acc. induction bs as [| b bs IH]; intro acc.
  - cbn. now rewrite app_nil_r.
  - cbn [map fold_left flat_map].
    destruct b; cbn [Z.b2z normalize_step Z.eqb Pos.eqb];
      rewrite IH, <- app_assoc; reflexivity.
Qed.

(** [normalize] on a number that is not negative: the pairs of its padded
    digits, and nothing printed. *)
Lemma normalize_nonneg (f : t) (d : Z) :
  0 <= d ->
  normalize f d = Ok (flat_map onehot (padded (num_bits f) d), []).
Proof.
  intro H. unfold normalize. rewrite zfill_bin by exact H.
  rewrite int_of_chars_bits. cbn [bind].
  now rewrite normalize_loop_bits.
Qed.

Lemma argmax_onehot (b : bool) : argmax (onehot b) = Ok (Nat.b2n b).
Proof. destruct b; reflexivity. Qed.

Lemma slice_onehot (pre suf : list bool) (b : bool) :
  slice (flat_map onehot (pre ++ b :: suf))
        (2 * Z.of_nat (List.length pre))
        (2 * (Z.of_nat (List.length pre) + 1))
  = onehot b.
Proof.
  unfold slice. rewrite flat_map_app. cbn [flat_map].
  replace (Z.to_nat (2 * Z.of_nat (List.length pre)))
    with (List.length (flat_map onehot pre) + 0)%nat
    by (rewrite flat_map_onehot_length; lia).
  rewrite skipn_app, skipn_all2 by lia.
  replace (List.length (flat_map onehot pre) + 0
           - List.length (flat_map onehot pre))%nat with O by lia.
  cbn [skipn app].
  replace (Z.to_nat (2 * (Z.of_nat (List.length pre) + 1)
                     - 2 * Z.of_nat (List.length pre))) with 2%nat by lia.
  now destruct b.
Qed.

Lemma denormalize_loop_bits (pre suf : list bool) (acc : string) :
  denormalize_loop (flat_map onehot (pre ++ suf)) acc
    (map Z.of_nat (seq (List.length pre) (List.length suf)))
  = Ok (acc ++ str_of_bits suf).
Proof.
  revert pre acc. induction suf as [| b suf IH]; intros pre acc.
  - cbn. f_equal. clear. induction acc; cbn; congruence.
  - cbn [List.length seq map denormalize_loop]. unfold denormalize_step.
    rewrite slice_onehot, argmax_onehot. cbn [bind].
    replace (pre ++ b :: suf)%list with ((pre ++ [b]) ++ suf)%list
      by (rewrite <- app_assoc; reflexivity).
    replace (S (List.length pre)) with (List.length (pre ++ [b])%list)
      by (rewrite length_app; cbn; lia).
    destruct b; cbn [Nat.b2n Nat.eqb bind]; rewrite IH; f_equal;
      cbn [str_of_bits char_of_bit];
      clear; induction acc; cbn; congruence.
Qed.

(** [denormalize] on the pairs of [n] bits, [n >= 1]. *)
Lemma denormalize_onehot (f : t) (bs : list bool) :
  Z.of_nat (List.length bs) = num_bits f -> bs <> [] ->
  denormalize f (PyList (flat_map onehot bs)) = Ok (bits_val 0 bs).
Proof.
  intros Hlen Hne. unfold denormalize.
  rewrite flat_map_onehot_length.
  replace (Z.of_nat (2 * List.length bs) =? 2 * num_bits f) with true
    by (symmetry; apply Z.eqb_eq; lia).
  cbn [negb]. unfold Py.range. rewrite <- Hlen, Nat2Z.id.
  pose proof (denormalize_loop_bits [] bs "0b") as Hloop.
  cbn [app List.length] in Hloop. rewrite Hloop. cbn [bind].
  now apply int_base2_bits.
Qed.

Lemma slice_pair (bs : list bool) (i : Z) :
  0 <= i < Z.of_nat (List.length bs) ->
  exists b, slice (flat_map onehot bs) (2 * i) (2 * (i + 1)) = onehot b.
Proof.
  intro Hi.
  destruct (nth_error bs (Z.to_nat i)) as [b |] eqn:E.
  - destruct (nth_error_split _ _ E) as (pre & suf & -> & Hlen).
    exists b. replace i with (Z.of_nat (List.length pre)) by lia.
    apply slice_onehot.
  - apply nth_error_None in E. lia.
Qed.

(** C2, as the code has it.  Round trip of BitField for a field of at
    least one bit: for [0 <= d < 2^num_bits], [normalize] returns a list
    on which [denormalize] returns [d]. *)
Theorem bit_round_trip (f : t) (d : Z)
    (Hbits : 1 <= num_bits f)
    (Hd : 0 <= d < 2 ^ num_bits f) :
  exists bits out,
    normalize f d = Ok (bits, out)
    /\ denormalize f (PyList bits) = Ok d.
Proof.
  exists (flat_map onehot (padded (num_bits f) d)), [].
  split; [apply normalize_nonneg; lia |].
  rewrite denormalize_onehot.
  - f_equal. apply bits_val_padded. lia.
  - rewrite padded_length by lia.
    pose proof (digits_fit _ _ Hbits Hd). lia.
  - unfold padded. intro E. apply app_eq_nil in E.
    now apply (bits_of_Z_nonempty d).
Qed.

Lemma bit_round_trip_witness :
  exists bits out,
    normalize bit4 5 = Ok (bits, out)
    /\ denormalize bit4 (PyList bits) = Ok 5.
Proof.
  apply (bit_round_trip bit4 5).
  - cbn. lia.
  - cbn. lia.
Defined.

(** The example of the specification: four bits, the number five. *)
Example bit_round_trip_five :
  normalize bit4 5
  = Ok ([Fin 1%Qc; Fin 0%Qc; Fin 0%Qc; Fin 1%Qc;
         Fin 1%Qc; Fin 0%Qc; Fin 0%Qc; Fin 1%Qc], [])
  /\ denormalize bit4
       (PyList [Fin 1%Qc; Fin 0%Qc; Fin 0%Qc; Fin 1%Qc;
                Fin 1%Qc; Fin 0%Qc; Fin 0%Qc; Fin 1%Qc])
     = Ok 5.
Proof. split; reflexivity. Qed.

(** C2 fails on the code for a field of zero bits: [bin(0)] still has one
    digit, so [normalize(0)] returns one pair, and [denormalize] refuses a
    list of that length. *)
Lemma bit_round_trip_zero_bits :
  0 <= 0 < 2 ^ num_bits bit0
  /\ normalize bit0 0 = Ok ([Fin 1%Qc; Fin 0%Qc], [])
  /\ denormalize bit0 (PyList [Fin 1%Qc; Fin 0%Qc])
     = Raise (AssertionError "length of bit array is wrong!")
  /\ ~ (exists bits out,
          normalize bit0 0 = Ok (bits, out)
          /\ denormalize bit0 (PyList bits) = Ok 0).
Proof.
  split; [cbn; lia |]. split; [reflexivity |]. split; [reflexivity |].
  intros (bits & out & Hn & Hd).
  change (normalize bit0 0) with
    (@Ok (list npfloat * list string) ([Fin 1%Qc; Fin 0%Qc], [])) in Hn.
  injection Hn as <- _. discriminate Hd.
Qed.

(** C10, as the code has it.  Shape of the result of [normalize] for a
    field of at least one bit and [0 <= d < 2^num_bits]: a list of
    [2 * num_bits] floats, each aligned pair of which is [[1.0, 0.0]] or
    [[0.0, 1.0]], and nothing is printed (the branch for a digit other than
    0 and 1 is not taken). *)
Theorem bit_normalize_well_formed (f : t) (d : Z)
    (Hbits : 1 <= num_bits f)
    (Hd : 0 <= d < 2 ^ num_bits f) :
  exists bits,
    normalize f d = Ok (bits, [])
    /\ Z.of_nat (List.length bits) = 2 * num_bits f
    /\ forall i, 0 <= i < num_bits f ->
         slice bits (2 * i) (2 * (i + 1)) = [Fin 1%Qc; Fin 0%Qc]
         \/ slice bits (2 * i) (2 * (i + 1)) = [Fin 0%Qc; Fin 1%Qc].
Proof.
  exists (flat_map onehot (padded (num_bits f) d)).
  assert (Hlen : Z.of_nat (List.length (padded (num_bits f) d)) = num_bits f).
  { rewrite padded_length by lia.
    pose proof (digits_fit _ _ Hbits Hd). lia. }
  split; [apply normalize_nonneg; lia | split].
  - rewrite flat_map_onehot_length. lia.
  - intros i Hi.
    destruct (slice_pair (padded (num_bits f) d) i) as [b Hb]; [lia |].
    rewrite Hb. destruct b; [right | left]; reflexivity.
Qed.

Lemma bit_normalize_well_formed_witness :
  exists bits,
    normalize bit4 5 = Ok (bits, [])
    /\ Z.of_nat (List.length bits) = 8
    /\ (slice bits 4 6 = [Fin 1%Qc; Fin 0%Qc]
        \/ slice bits 4 6 = [Fin 0%Qc; Fin 1%Qc]).
Proof.
  destruct (bit_normalize_well_formed bit4 5) as (bits & Hn & Hlen & Hp).
  - cbn. lia.
  - cbn. lia.
  - exists bits. split; [exact Hn | split; [exact Hlen |]].
    apply (Hp 2). cbn. lia.
Defined.

(** C10 fails on the code for a field of zero bits: the list returned for
    the one number of the range, 0, has two entries, not [2 * 0]. *)
Lemma bit_normalize_zero_bits :
  0 <= 0 < 2 ^ num_bits bit0
  /\ normalize bit0 0 = Ok ([Fin 1%Qc; Fin 0%Qc], [])
  /\ ~ (exists bits out,
          normalize bit0 0 = Ok (bits, out)
          /\ Z.of_nat (List.length bits) = 2 * num_bits bit0).
Proof.
  split; [cbn; lia |]. split; [reflexivity |].
  intros (bits & out & Hn & Hlen).
  change (normalize bit0 0) with
    (@Ok (list npfloat * list string) ([Fin 1%Qc; Fin 0%Qc], [])) in Hn.
  injection Hn as <- _. discriminate Hlen.
Qed.

(** C3, as the code has it.  [normalize] has no range check: for
    [d >= 2^num_bits] it returns the pairs of all the digits of [d],
    a list of [2 * (log2 d + 1)] entries, longer than [2 * num_bits]. *)
Theorem bit_normalize_overflow (f : t) (d : Z)
    (Hbits : 0 <= num_bits f)
    (Hd : 2 ^ num_bits f <= d) :
  exists bits,
    normalize f d = Ok (bits, [])
    /\ bits = flat_map onehot (bits_of_Z d)
    /\ Z.of_nat (List.length bits) = 2 * (Z.log2 d + 1)
    /\ 2 * num_bits f < Z.of_nat (List.length bits).
Proof.
  assert (Hpos : 0 < 2 ^ num_bits f) by (apply Z.pow_pos_nonneg; lia).
  pose proof (digits_overflow _ _ Hbits Hd) as Hover.
  pose proof (bits_of_Z_length d ltac:(lia)) as Hlen.
  assert (Hpad : padded (num_bits f) d = bits_of_Z d).
  { unfold padded.
    replace (Z.to_nat (num_bits f - Z.of_nat (List.length (bits_of_Z d))))
      with O by lia.
    reflexivity. }
  exists (flat_map onehot (bits_of_Z d)).
  split; [rewrite <- Hpad; apply normalize_nonneg; lia |].
  split; [reflexivity |].
  rewrite flat_map_onehot_length. lia.
Qed.

Lemma bit_normalize_overflow_witness :
  exists bits,
    normalize bit3 8 = Ok (bits, [])
    /\ Z.of_nat (List.length bits) = 8.
Proof.
  destruct (bit_normalize_overflow bit3 8) as (bits & Hn & _ & Hlen & _).
  - cbn. lia.
  - cbn. lia.
  - exists bits. split; [exact Hn | exact Hlen].
Defined.

(** C3 fails on the code: a three-bit field takes 8 and returns the four
    pairs of 1000; it does not raise. *)
Lemma bit_normalize_no_range_error :
  2 ^ num_bits bit3 <= 8
  /\ normalize bit3 8
     = Ok ([Fin 0%Qc; Fin 1%Qc; Fin 1%Qc; Fin 0%Qc;
            Fin 1%Qc; Fin 0%Qc; Fin 1%Qc; Fin 0%Qc], [])
  /\ ~ raises (normalize bit3 8).
Proof.
  split; [cbn; lia |]. split; [reflexivity |].
  intros [e He]. discriminate He.
Qed.

Lemma append_loop {A : Type} (c : A) (l : list Z) (acc : list A) :
  fold_left (fun outputs _ => (outputs ++ [c])%list) l acc
  = (acc ++ repeat c (List.length l))%list.
Proof.
  revert acc. induction l as [| i l IH]; intro acc; cbn [fold_left].
  - cbn. now rewrite app_nil_r.
  - rewrite IH. cbn [List.length repeat]. now rewrite <- app_assoc.
Qed.

Lemma range_length (n : Z) : List.length (Py.range n) = Z.to_nat n.
Proof. unfold Py.range. now rewrite length_map, length_seq. Qed.

(** C8. [getOutputType] of a BitField with [num_bits >= 0] returns
    [num_bits] descriptors, each of them discrete, of width 2 and without
    a normalization. *)
Theorem bit_output_type (f : t) (Hbits : 0 <= num_bits f) :
  Z.of_nat (List.length (getOutputType f)) = num_bits f
  /\ Forall (fun o => type_ o = DISCRETE /\ dim o = 2
                      /\ normalization o = None)
            (getOutputType f).
Proof.
  unfold getOutputType. rewrite append_loop, range_length. cbn [app].
  split.
  - rewrite repeat_length. lia.
  - apply Forall_forall. intros o Ho. apply repeat_spec in Ho.
    subst o. repeat split.
Qed.

Lemma bit_output_type_witness :
  Z.of_nat (List.length (getOutputType bit4)) = 4
  /\ Forall (fun o => type_ o = DISCRETE /\ dim o = 2
                      /\ normalization o = None)
            (getOutputType bit4).
Proof. apply (bit_output_type bit4). cbn. lia. Defined.

Example bit_output_type_four :
  getOutputType bit4
  = [mk_Output DISCRETE 2 None; mk_Output DISCRETE 2 None;
     mk_Output DISCRETE 2 None; mk_Output DISCRETE 2 None].
Proof. reflexivity. Qed.

End Bit.

(** ** numpy's argmax *)

Section Argmax.

Lemma fle_refl (v : npfloat) : is_nan v = false -> fle v v = true.
Proof.
  destruct v as [q | | |]; cbn; try congruence.
  intros _. now rewrite (proj1 (Qceq_alt q q) eq_refl).
Qed.

Lemma fle_Fin (a b : Qc) : fle (Fin a) (Fin b) = true <-> (a <= b)%Qc.
Proof.
  cbn [fle]. rewrite Qcle_alt. destruct (a ?= b)%Qc; split; congruence.
Qed.

Lemma fle_total (v w : npfloat) :
  is_nan v = false -> is_nan w = false -> fle v w = false -> fle w v = true.
Proof.
  destruct v as [a | | |], w as [b | | |]; cbn [is_nan fle]; try congruence.
  intros _ _ H. apply fle_Fin.
  destruct (a ?= b)%Qc eqn:E; try discriminate H.
  apply Qcgt_alt in E. now apply Qclt_le_weak.
Qed.

Lemma fle_trans (u v w : npfloat) :
  fle u v = true -> fle v w = true -> fle u w = true.
Proof.
  destruct u as [a | | |], v as [b | | |], w as [c | | |];
    cbn [fle]; try congruence.
  intros H1 H2. apply fle_Fin in H1, H2. apply fle_Fin.
  now apply Qcle_trans with b.
Qed.

Lemma fle_not_nan (v w : npfloat) :
  fle v w = true -> is_nan v = false /\ is_nan w = false.
Proof. destruct v, w; cbn; intro H; split; congruence. Qed.

Lemma fge_np_refl (v : npfloat) : fge_np v v = true.
Proof.
  unfold fge_np. destruct (is_nan v) eqn:E; [reflexivity |].
  now apply fle_refl.
Qed.

Lemma fge_np_total (v w : npfloat) :
  fge_np v w = false -> fge_np w v = true.
Proof.
  unfold fge_np. intro H. apply orb_false_iff in H as [Hv Hw].
  destruct (is_nan w) eqn:E; [reflexivity |]. cbn [orb].
  now apply fle_total.
Qed.

Lemma fge_np_trans (u v w : npfloat) :
  fge_np u v = true -> fge_np v w = true -> fge_np u w = true.
Proof.
  unfold fge_np. intros H1 H2.
  destruct (is_nan u) eqn:Eu; [reflexivity |]. cbn [orb] in *.
  destruct (fle_not_nan _ _ H1) as [Ev _]. rewrite Ev in H2. cbn [orb] in H2.
  now apply fle_trans with v.
Qed.

(** The scan keeps the lowest index of the highest entry seen so far. *)
Lemma argmax_from_spec (l pre : list npfloat) (mp : npfloat) (best : nat) :
  nth_error pre best = Some mp ->
  (forall j w, nth_error pre j = Some w -> fge_np mp w = true) ->
  (forall j w, (j < best)%nat -> nth_error pre j = Some w ->
     fge_np w mp = false) ->
  is_argmax (pre ++ l) (argmax_from mp best (List.length pre) l).
Proof.
  revert pre mp best.
  induction l as [| x l IH]; intros pre mp best Hbest Hmax Hfirst.
  - cbn [argmax_from]. rewrite app_nil_r. now exists mp.
  - assert (Hlt : (best < List.length pre)%nat)
      by (apply nth_error_Some; congruence).
    cbn [argmax_from]. destruct (is_nan mp) eqn:Enan.
    + exists mp. repeat split.
      * now rewrite nth_error_app1.
      * intros j w _. unfold fge_np. now rewrite Enan.
      * intros j w Hj Hw. rewrite nth_error_app1 in Hw by lia. eauto.
    + replace (pre ++ x :: l)%list with ((pre ++ [x]) ++ l)%list
        by (rewrite <- app_assoc; reflexivity).
      replace (S (List.length pre)) with (List.length (pre ++ [x])%list)
        by (rewrite length_app; cbn; lia).
      assert (Hsnoc : forall j w, nth_error (pre ++ [x]) j = Some w ->
                nth_error pre j = Some w \/ (j = List.length pre /\ w = x)).
      { intros j w Hw. destruct (Nat.lt_ge_cases j (List.length pre)) as [Hj | Hj].
        - left. now rewrite nth_error_app1 in Hw.
        - right. rewrite nth_error_app2 in Hw by exact Hj.
          destruct (j - List.length pre)%nat as [| k] eqn:Ek.
          + cbn in Hw. split; [lia | congruence].
          + destruct k; discriminate Hw. }
      destruct (fle x mp) eqn:Ele.
      * apply IH.
        -- now rewrite nth_error_app1.
        -- intros j w Hw. destruct (Hsnoc j w Hw) as [Hp | [_ ->]].
           ++ eauto.
           ++ unfold fge_np. now rewrite Ele, orb_true_r.
        -- intros j w Hj Hw. rewrite nth_error_app1 in Hw by lia. eauto.
      * assert (Hx : fge_np mp x = false)
          by (unfold fge_np; now rewrite Enan, Ele).
        apply IH.
        -- rewrite nth_error_app2 by lia. now rewrite Nat.sub_diag.
        -- intros j w Hw. destruct (Hsnoc j w Hw) as [Hp | [_ ->]].
           ++ apply fge_np_trans with mp; [now apply fge_np_total | eauto].
           ++ apply fge_np_refl.
        -- intros j w Hj Hw. rewrite nth_error_app1 in Hw by lia.
           destruct (fge_np w x) eqn:Ew; [| reflexivity].
           rewrite (fge_np_trans mp w x (Hmax j w Hw) Ew) in Hx.
           discriminate Hx.
Qed.

(** [np.argmax] of a row that is not empty returns its arg-max. *)
Lemma argmax_spec (r : list npfloat) :
  r <> [] -> exists k, argmax r = Ok k /\ is_argmax r k.
Proof.
  intro Hne. destruct r as [| x l]; [now elim Hne |].
  exists (argmax_from x 0 1 l). split; [reflexivity |].
  apply (argmax_from_spec l [x] x 0%nat).
  - reflexivity.
  - intros j w Hw. destruct j as [| j].
    + cbn in Hw. injection Hw as <-. apply fge_np_refl.
    + destruct j; discriminate Hw.
  - intros j w Hj. lia.
Qed.

Lemma is_argmax_bound (r : list npfloat) (k : nat) :
  is_argmax r k -> (k < List.length r)%nat.
Proof.
  intros (v & Hv & _). apply nth_error_Some. congruence.
Qed.

(** In a row of equal entries the arg-max is the first index. *)
Lemma is_argmax_constant (v : npfloat) (n k : nat) :
  is_argmax (repeat v n) k -> k = 0%nat.
Proof.
  intros (u & Hu & _ & Hfirst).
  destruct k as [| k]; [reflexivity | exfalso].
  assert (Hn : (S k < n)%nat).
  { rewrite <- (repeat_length v n). apply nth_error_Some. congruence. }
  assert (Hu' : u = v).
  { apply nth_error_In in Hu. now apply repeat_spec in Hu. }
  subst u.
  assert (H0 : nth_error (repeat v n) 0 = Some v).
  { destruct n; [lia | reflexivity]. }
  specialize (Hfirst 0%nat v ltac:(lia) H0).
  rewrite fge_np_refl in Hfirst. discriminate Hfirst.
Qed.

End Argmax.

(** ** Arrays *)

Section Arrays.

Lemma size_of_app (s1 s2 : list nat) :
  size_of (s1 ++ s2) = (size_of s1 * size_of s2)%nat.
Proof.
  induction s1 as [| n s1 IH]; cbn [size_of app fold_right].
  - fold (size_of s2). lia.
  - fold (size_of (s1 ++ s2)) (size_of s1). rewrite IH. lia.
Qed.

Lemma row_length {A : Type} (d n i : nat) (buf : list A) :
  List.length buf = (n * d)%nat -> (i < n)%nat ->
  List.length (row d buf i) = d.
Proof.
  intros Hlen Hi. unfold row. rewrite length_firstn, length_skipn. nia.
Qed.

Lemma mapM_Forall2 {A B : Type} (g : A -> result B) (P : A -> B -> Prop)
    (l : list A) :
  (forall x, In x l -> exists y, g x = Ok y /\ P x y) ->
  exists ys, mapM g l = Ok ys /\ Forall2 P l ys.
Proof.
  induction l as [| x l IH]; intro H.
  - exists []. split; [reflexivity | constructor].
  - destruct (H x (or_introl eq_refl)) as (y & Hy & HP).
    destruct IH as (ys & Hys & HF); [intros z Hz; apply H; now right |].
    exists (y :: ys). cbn [mapM]. rewrite Hy, Hys. cbn [bind].
    split; [reflexivity | now constructor].
Qed.

Lemma Forall2_nth_error_l {A B : Type} (P : A -> B -> Prop)
    (l : list A) (l' : list B) (i : nat) (x : A) :
  Forall2 P l l' -> nth_error l i = Some x ->
  exists y, nth_error l' i = Some y /\ P x y.
Proof.
  intro HF. revert i.
  induction HF as [| a b l l' Hab HF IH]; intros [| j] Hj; cbn in *.
  - discriminate Hj.
  - discriminate Hj.
  - injection Hj as <-. now exists b.
  - now apply IH.
Qed.

Lemma nth_error_seq (n i : nat) :
  (i < n)%nat -> nth_error (seq 0 n) i = Some i.
Proof.
  intro Hi. rewrite (nth_error_nth' _ 0%nat) by (rewrite length_seq; lia).
  now rewrite seq_nth.
Qed.

End Arrays.

(** ** DiscreteField *)

Section Discrete.

Import DiscreteField.

Lemma mem_In (v : string) (l : list string) : Pd.mem v l = true <-> In v l.
Proof.
  induction l as [| c l IH]; cbn [Pd.mem In].
  - split; [discriminate | tauto].
  - rewrite orb_true_iff, IH, String.eqb_eq. tauto.
Qed.

Lemma is_unique_NoDup (l : list string) : NoDup l -> Pd.is_unique l = true.
Proof.
  induction 1 as [| c l Hc Hl IH]; cbn [Pd.is_unique]; [reflexivity |].
  rewrite IH, andb_true_r. apply negb_true_iff.
  destruct (Pd.mem c l) eqn:E; [| reflexivity].
  apply mem_In in E. contradiction.
Qed.

Lemma code_unknown (cats : list string) (v : string) :
  ~ In v cats -> Pd.code cats v = None.
Proof.
  induction cats as [| c cats IH]; intro H; cbn [Pd.code]; [reflexivity |].
  destruct (String.eqb c v) eqn:E.
  - apply String.eqb_eq in E. elim H. now left.
  - rewrite IH; [reflexivity |]. intro Hin. apply H. now right.
Qed.

Lemma dummies_row_missing (cats : list string) :
  Pd.dummies_row cats None = repeat (Fin 0%Qc) (List.length cats).
Proof.
  unfold Pd.dummies_row. generalize 0%nat.
  induction (List.length cats) as [| k IH]; intro s; cbn [seq map repeat].
  - reflexivity.
  - now rewrite IH.
Qed.

(** C5. Unknown category: for a vocabulary of distinct labels and a value
    that is not one of them, [normalize] does not raise and returns a row
    of [len(choices)] zeros. *)
Theorem discrete_unknown_category (f : t) (x : string)
    (Hdistinct : NoDup (choices f))
    (Hunknown : ~ In x (choices f)) :
  normalize f (Scalar x)
  = Ok (mk_ndarray [List.length (choices f)]
                   (repeat (Fin 0%Qc) (List.length (choices f)))).
Proof.
  unfold normalize, Pd.CategoricalDtype.
  rewrite is_unique_NoDup by exact Hdistinct. cbn [bind is_sequence negb].
  unfold Pd.astype, Pd.get_dummies, nd_first.
  cbn [map List.concat List.length shape data Nat.eqb].
  rewrite code_unknown by exact Hunknown.
  rewrite dummies_row_missing, app_nil_r.
  f_equal. f_equal.
  rewrite firstn_all2; [reflexivity |].
  rewrite repeat_length. cbn [size_of fold_right]. lia.
Qed.

Lemma discrete_unknown_category_witness :
  normalize abc (Scalar "z")
  = Ok (mk_ndarray [3%nat] [Fin 0%Qc; Fin 0%Qc; Fin 0%Qc]).
Proof.
  apply (discrete_unknown_category abc "z").
  - repeat constructor; cbn; intuition discriminate.
  - cbn. intuition discriminate.
Defined.

(** The one-hot examples of the specification. *)
Example discrete_one_hot :
  normalize abc (Scalar "b")
  = Ok (mk_ndarray [3%nat] [Fin 0%Qc; Fin 1%Qc; Fin 0%Qc])
  /\ normalize abc (Seq "a" ["c"])
     = Ok (mk_ndarray [2%nat; 3%nat]
             [Fin 1%Qc; Fin 0%Qc; Fin 0%Qc; Fin 0%Qc; Fin 0%Qc; Fin 1%Qc])
  /\ denormalize abc (vec [Fin 0%Qc; Fin 1%Qc; Fin 0%Qc])
     = Ok (mk_ndarray [] ["b"]).
Proof. repeat split. Qed.

Lemma shape_cases (outer : list nat) (d : nat) :
  match (outer ++ [d])%list with
  | [] => [1%nat]
  | n :: s => n :: s
  end = (outer ++ [d])%list.
Proof. now destruct outer. Qed.

(** C9, as the code has it.  [denormalize] on an array of rows of width
    [d], with [1 <= d <= len(choices)]: every row gives the label at its
    arg-max, the lowest index among equal maxima; that label is an entry
    of the vocabulary, and for a row of zeros it is the first one. *)
Theorem discrete_denormalize_argmax (f : t) (a : ndarray npfloat)
    (outer : list nat) (d : nat)
    (Hshape : shape a = (outer ++ [d])%list)
    (Hwf : wf a)
    (Hrow : (0 < d)%nat)
    (Hwidth : (d <= List.length (choices f))%nat) :
  exists labels,
    denormalize f a = Ok (mk_ndarray outer labels)
    /\ List.length labels = size_of outer
    /\ forall i, (i < size_of outer)%nat ->
         exists k lbl,
           is_argmax (row d (data a) i) k
           /\ nth_error (choices f) k = Some lbl
           /\ nth_error labels i = Some lbl
           /\ In lbl (choices f)
           /\ (row d (data a) i = repeat (Fin 0%Qc) d -> k = 0%nat).
Proof.
  assert (Hlen : List.length (data a) = (size_of outer * d)%nat).
  { unfold wf in Hwf. rewrite Hwf, Hshape, size_of_app.
    cbn [size_of fold_right]. lia. }
  destruct (mapM_Forall2
              (fun i => argmax (row d (data a) i))
              (fun i k => is_argmax (row d (data a) i) k)
              (seq 0 (size_of outer))) as (idx & Hidx & Fidx).
  { intros i Hi. apply in_seq in Hi. apply argmax_spec.
    intro E. apply (f_equal (@List.length npfloat)) in E.
    rewrite (row_length d (size_of outer)) in E by (assumption || lia).
    cbn in E. lia. }
  destruct (mapM_Forall2
              (fun i => match nth_error (choices f) i with
                        | Some v => Ok v
                        | None =>
                            Raise (IndexError
                              ("index " ++ Py.str (Z.of_nat i)
                               ++ " is out of bounds for axis 0 with size "
                               ++ Py.str (Z.of_nat (List.length (choices f)))))
                        end)
              (fun k lbl => nth_error (choices f) k = Some lbl)
              idx) as (labels & Hlabels & Flabels).
  { intros k Hk.
    apply In_nth_error in Hk as [j Hj].
    destruct (Forall2_nth_error_l _ _ _ _ _ (Forall2_flip Fidx) Hj)
      as (i & Hi & Harg).
    apply nth_error_In, in_seq in Hi.
    apply is_argmax_bound in Harg.
    rewrite (row_length d (size_of outer)) in Harg by (assumption || lia).
    destruct (nth_error (choices f) k) as [v |] eqn:Ev.
    - now exists v.
    - apply nth_error_None in Ev. lia. }
  exists labels. split; [| split].
  - unfold denormalize, argmax_last_axis.
    rewrite Hshape, shape_cases, last_last, removelast_last.
    replace (Nat.eqb d 0) with false by (symmetry; apply Nat.eqb_neq; lia).
    rewrite Hidx. cbn [bind]. unfold take. cbn [data shape].
    rewrite Hlabels. reflexivity.
  - rewrite <- (Forall2_length Flabels), <- (Forall2_length Fidx).
    apply length_seq.
  - intros i Hi.
    destruct (Forall2_nth_error_l _ _ _ _ _ Fidx (nth_error_seq _ _ Hi))
      as (k & Hk & Harg).
    destruct (Forall2_nth_error_l _ _ _ _ _ Flabels Hk)
      as (lbl & Hlbl & Hchoice).
    exists k, lbl. repeat split; try assumption.
    + now apply nth_error_In with k.
    + intro Hzero. rewrite Hzero in Harg.
      now apply is_argmax_constant in Harg.
Qed.

Lemma discrete_denormalize_argmax_witness :
  exists labels,
    denormalize abc
      (mk_ndarray [2%nat; 3%nat]
         [Fin 0%Qc; Fin 1%Qc; Fin 0%Qc; Fin 0%Qc; Fin 0%Qc; Fin 0%Qc])
    = Ok (mk_ndarray [2%nat] labels)
    /\ List.length labels = 2%nat.
Proof.
  destruct (discrete_denormalize_argmax abc
              (mk_ndarray [2%nat; 3%nat]
                 [Fin 0%Qc; Fin 1%Qc; Fin 0%Qc; Fin 0%Qc; Fin 0%Qc; Fin 0%Qc])
              [2%nat] 3%nat)
    as (labels & Hd & Hlen & _).
  - reflexivity.
  - reflexivity.
  - lia.
  - cbn. lia.
  - exists labels. split; [exact Hd | exact Hlen].
Defined.

(** A matrix with a one-hot row and a row of zeros. *)
Example discrete_denormalize_rows :
  denormalize abc
    (mk_ndarray [2%nat; 3%nat]
       [Fin 0%Qc; Fin 1%Qc; Fin 0%Qc; Fin 0%Qc; Fin 0%Qc; Fin 0%Qc])
  = Ok (mk_ndarray [2%nat] ["b"; "a"]).
Proof. reflexivity. Qed.

(** C9 fails on the code for a row wider than the vocabulary: the arg-max
    of [[0, 1]] is 1, and a vocabulary of one label has no entry 1; the
    indexing raises and no label is returned. *)
Lemma discrete_denormalize_wide_row :
  denormalize only_a (vec [Fin 0%Qc; Fin 1%Qc])
  = Raise (IndexError "index 1 is out of bounds for axis 0 with size 1")
  /\ ~ (exists labels,
          denormalize only_a (vec [Fin 0%Qc; Fin 1%Qc]) = Ok labels).
Proof.
  split; [reflexivity |]. intros [labels H]. discriminate H.
Qed.

End Discrete.

(** * Further properties *)

(** ** ContinuousField: validation, shapes, the degenerate range *)

Section ContinuousMore.

Import ContinuousField.
Local Open Scope Qc_scope.

Lemma shape_last_nil {A : Type} (x : ndarray A) :
  shape x = [] -> shape_last x = Raise (IndexError "tuple index out of range").
Proof. unfold shape_last. now intros ->. Qed.

(** X1. The checks that come before the arithmetic are the same in both
    methods and in the same order: a zero-dimensional input raises
    IndexError; a trailing dimension other than [dim_x] raises ValueError
    whatever the mode is; a mode that is not a normalization raises
    Exception once the dimension check has passed. *)
Theorem continuous_validation (f : t) (x : ndarray npfloat) :
  (shape x = [] ->
     normalize f x = Raise (IndexError "tuple index out of range")
     /\ denormalize f x = Raise (IndexError "tuple index out of range"))
  /\ (forall d, shape_last x = Ok d -> Z.of_nat d <> dim_x f ->
        normalize f x = Raise (ValueError (dimension_msg d (dim_x f)))
        /\ denormalize f x = Raise (ValueError (dimension_msg d (dim_x f))))
  /\ (forall d, shape_last x = Ok d -> Z.of_nat d = dim_x f ->
        norm_option f = None ->
        normalize f x = Raise (Exception "Not valid normalization option!")
        /\ denormalize f x
           = Raise (Exception "Not valid normalization option!")).
Proof.
  unfold normalize, denormalize. split; [| split].
  - intro Hnil. rewrite (shape_last_nil x Hnil). split; reflexivity.
  - intros d Hs Hne. rewrite Hs. cbn [bind].
    apply Z.eqb_neq in Hne. rewrite Hne. split; reflexivity.
  - intros d Hs Heq Hm. rewrite Hs. cbn [bind].
    rewrite Heq, Z.eqb_refl, Hm. split; reflexivity.
Qed.

Lemma continuous_validation_witness :
  normalize no_mode (vec [Fin 1])
  = Raise (Exception "Not valid normalization option!")
  /\ denormalize no_mode (vec [Fin 1])
     = Raise (Exception "Not valid normalization option!").
Proof.
  destruct (continuous_validation no_mode (vec [Fin 1]))
    as (_ & _ & Hmode).
  exact (Hmode 1%nat eq_refl eq_refl eq_refl).
Defined.

(** X2. Neither method changes the shape: a returned array has the shape
    of the input and as many entries, so a well-formed input gives a
    well-formed result. *)
Theorem continuous_shape_preserved (f : t) (x y : ndarray npfloat)
    (Hret : normalize f x = Ok y \/ denormalize f x = Ok y) :
  shape y = shape x
  /\ List.length (data y) = List.length (data x)
  /\ (wf x -> wf y).
Proof.
  assert (H : exists g, y = nd_map g x).
  { unfold normalize, denormalize in Hret.
    destruct (shape_last x) as [d | e]; cbn [bind] in Hret;
      [| destruct Hret; discriminate].
    destruct (negb (Z.of_nat d =? dim_x f));
      [destruct Hret; discriminate |].
    destruct (norm_option f) as [[|] |];
      destruct Hret as [Hret | Hret]; try discriminate;
      injection Hret as <-; eauto. }
  destruct H as [g ->]. unfold nd_map, wf. cbn [shape data].
  rewrite length_map. repeat split. intro Hw. exact Hw.
Qed.

Lemma continuous_shape_preserved_witness :
  exists y,
    normalize (unit_interval ZERO_ONE) (vec [Fin (Q2Qc 3)]) = Ok y
    /\ shape y = [1%nat] /\ wf y.
Proof.
  exists (nd_map (forward (unit_interval ZERO_ONE) ZERO_ONE)
                 (vec [Fin (Q2Qc 3)])).
  destruct (continuous_shape_preserved (unit_interval ZERO_ONE)
              (vec [Fin (Q2Qc 3)])
              (nd_map (forward (unit_interval ZERO_ONE) ZERO_ONE)
                      (vec [Fin (Q2Qc 3)]))
              (or_introl eq_refl)) as (Hs & _ & Hw).
  split; [reflexivity | split; [exact Hs | apply Hw; reflexivity]].
Defined.

Lemma degenerate_round_trip_entry (f : t) (m : Normalization) (v : npfloat) :
  max_x f = min_x f -> backward f m (forward f m v) = NaN.
Proof.
  intro H. assert (Hz : max_x f + - min_x f = 0) by (rewrite H; ring).
  assert (Hs : forall c, backward f m (sign_inf c) = NaN).
  { intro c. destruct m, c;
      unfold backward, inv_zero_one, inv_minusone_one;
      cbn [sign_inf fadd fsub fopp]; rewrite Hz; reflexivity. }
  destruct v as [q | | |].
  - rewrite forward_degenerate by exact H. apply Hs.
  - replace (forward f m PInf) with (sign_inf Gt); [apply Hs |].
    destruct m; unfold forward, zero_one, minusone_one;
      cbn [fadd fsub fopp fmul]; rewrite Hz; reflexivity.
  - replace (forward f m NInf) with (sign_inf Lt); [apply Hs |].
    destruct m; unfold forward, zero_one, minusone_one;
      cbn [fadd fsub fopp fmul]; rewrite Hz; reflexivity.
  - replace (forward f m NaN) with (sign_inf Eq); [apply Hs |].
    destruct m; reflexivity.
Qed.

(** X8. A degenerate range loses the data: with [max_x = min_x] both
    methods return, and [denormalize (normalize x)] is the array of the
    shape of [x] whose every entry is NaN. *)
Theorem continuous_degenerate_round_trip (f : t) (m : Normalization)
    (x : ndarray npfloat) (d : nat)
    (Hdeg : max_x f = min_x f)
    (Hmode : norm_option f = Some m)
    (Hshape : shape_last x = Ok d)
    (Hdim : Z.of_nat d = dim_x f) :
  exists y,
    normalize f x = Ok y
    /\ denormalize f y = Ok (nd_map (fun _ => NaN) x).
Proof.
  exists (nd_map (forward f m) x). split.
  - now apply normalize_matching with (d := d).
  - rewrite denormalize_matching with (m := m) (d := d); try assumption.
    f_equal. unfold nd_map. cbn [shape data]. f_equal.
    rewrite map_map. apply map_ext. intro v.
    now apply degenerate_round_trip_entry.
Qed.

Lemma continuous_degenerate_round_trip_witness :
  exists y,
    normalize (degenerate MINUSONE_ONE) (vec [Fin (Q2Qc 7)]) = Ok y
    /\ denormalize (degenerate MINUSONE_ONE) y = Ok (vec [NaN]).
Proof.
  apply (continuous_degenerate_round_trip (degenerate MINUSONE_ONE)
           MINUSONE_ONE (vec [Fin (Q2Qc 7)]) 1%nat);
    reflexivity.
Defined.

End ContinuousMore.

(** ** DiscreteField: one-hot rows and round trips *)

Section DiscreteMore.

Import DiscreteField.

Lemma is_unique_true_NoDup (l : list string) :
  Pd.is_unique l = true -> NoDup l.
Proof.
  induction l as [| c l IH]; cbn [Pd.is_unique]; intro H.
  - constructor.
  - apply andb_true_iff in H as [Hc Hl]. constructor.
    + intro Hin. apply mem_In in Hin. rewrite Hin in Hc. discriminate Hc.
    + now apply IH.
Qed.

Lemma one_hot_row_unknown (cats : list string) (v : string) :
  ~ In v cats -> one_hot_row cats v = repeat (Fin 0%Qc) (List.length cats).
Proof.
  induction cats as [| c cats IH]; intro H; [reflexivity |].
  cbn [one_hot_row map List.length repeat].
  destruct (String.eqb c v) eqn:E.
  - apply String.eqb_eq in E. elim H. now left.
  - f_equal. apply IH. intro Hin. apply H. now right.
Qed.

Lemma dummies_tail_zero (s n : nat) :
  map (fun j => if Nat.eqb j 0 then Fin 1%Qc else Fin 0%Qc) (seq (S s) n)
  = repeat (Fin 0%Qc) n.
Proof.
  revert s. induction n as [| n IH]; intro s; [reflexivity |].
  cbn [seq map repeat Nat.eqb]. now rewrite IH.
Qed.

(** The row that pandas builds from the code of a label is the one-hot row
    of the label, when the categories are distinct. *)
Lemma dummies_row_code (cats : list string) (v : string) :
  NoDup cats -> Pd.dummies_row cats (Pd.code cats v) = one_hot_row cats v.
Proof.
  induction 1 as [| c cats Hc Hnd IH]; [reflexivity |].
  change (one_hot_row (c :: cats) v)
    with ((if String.eqb c v then Fin 1%Qc else Fin 0%Qc)
          :: one_hot_row cats v).
  unfold Pd.dummies_row in *. cbn [Pd.code List.length seq map].
  destruct (String.eqb c v) eqn:E.
  - apply String.eqb_eq in E. subst c. cbn [Nat.eqb]. f_equal.
    rewrite dummies_tail_zero.
    symmetry. now apply one_hot_row_unknown.
  - replace (match option_map S (Pd.code cats v) with
             | Some k => if Nat.eqb 0 k then Fin 1%Qc else Fin 0%Qc
             | None => Fin 0%Qc
             end) with (Fin 0%Qc)
      by (destruct (Pd.code cats v); reflexivity).
    f_equal. rewrite <- seq_shift, map_map. rewrite <- IH.
    apply map_ext. intro j. destruct (Pd.code cats v); reflexivity.
Qed.

Lemma one_hot_row_length (cats : list string) (v : string) :
  List.length (one_hot_row cats v) = List.length cats.
Proof. unfold one_hot_row. apply length_map. Qed.

(** The result of [normalize] for a vocabulary of distinct labels. *)
Lemma discrete_normalize_one_hot_nf (f : t) (x : value) :
  NoDup (choices f) ->
  normalize f x
  = Ok (mk_ndarray
          ((match x with
            | Scalar _ => []
            | Seq _ vs => [S (List.length vs)]
            end) ++ [List.length (choices f)])
          (List.concat (map (one_hot_row (choices f)) (values x)))).
Proof.
  intro Hdistinct. unfold normalize, Pd.CategoricalDtype.
  rewrite is_unique_NoDup by exact Hdistinct. cbn [bind].
  unfold Pd.astype, Pd.get_dummies.
  destruct x as [v | v vs]; cbn [is_sequence negb values app].
  - unfold nd_first. cbn [map List.concat List.length shape data Nat.eqb].
    rewrite dummies_row_code by exact Hdistinct.
    rewrite firstn_all2; [reflexivity |].
    rewrite app_nil_r, one_hot_row_length. cbn [size_of fold_right]. lia.
  - rewrite length_map. cbn [List.length]. f_equal. f_equal. f_equal.
    rewrite map_map. apply map_ext. intro w.
    now apply dummies_row_code.
Qed.

(** X9. For a vocabulary of distinct labels [normalize] returns the
    one-hot encoding: a label gives a row of width [len(choices)], a
    sequence of [n] labels an [n] by [len(choices)] matrix, and each row
    holds 1 exactly in the columns of its label and 0 elsewhere. *)
Theorem discrete_normalize_one_hot (f : t) (x : value)
    (Hdistinct : NoDup (choices f)) :
  normalize f x
  = Ok (mk_ndarray
          (match x with
           | Scalar _ => [List.length (choices f)]
           | Seq _ vs => [S (List.length vs); List.length (choices f)]
           end)
          (List.concat (map (one_hot_row (choices f)) (values x)))).
Proof.
  rewrite discrete_normalize_one_hot_nf by exact Hdistinct.
  now destruct x.
Qed.

Lemma discrete_normalize_one_hot_witness :
  normalize abc (Seq "c" ["z"; "a"])
  = Ok (mk_ndarray [3%nat; 3%nat]
          [Fin 0%Qc; Fin 0%Qc; Fin 1%Qc;
           Fin 0%Qc; Fin 0%Qc; Fin 0%Qc;
           Fin 1%Qc; Fin 0%Qc; Fin 0%Qc]).
Proof.
  apply (discrete_normalize_one_hot abc (Seq "c" ["z"; "a"])).
  repeat constructor; cbn; intuition discriminate.
Defined.

(** X12. A vocabulary with a repeated label is accepted by the constructor
    but no value can be encoded with it: [normalize] raises ValueError on
    every input. *)
Theorem discrete_duplicate_vocabulary (f : t) (x : value)
    (Hdup : ~ NoDup (choices f)) :
  normalize f x = Raise (ValueError "Categorical categories must be unique").
Proof.
  unfold normalize, Pd.CategoricalDtype.
  destruct (Pd.is_unique (choices f)) eqn:E; [| reflexivity].
  elim Hdup. now apply is_unique_true_NoDup.
Qed.

Lemma discrete_duplicate_vocabulary_witness :
  normalize dup_vocab (Scalar "b")
  = Raise (ValueError "Categorical categories must be unique").
Proof.
  apply (discrete_duplicate_vocabulary dup_vocab (Scalar "b")).
  intro H. inversion H as [| c l Hc Hl]. apply Hc. cbn. tauto.
Defined.

(** X13. An empty vocabulary encodes and cannot decode: [normalize]
    returns an array whose last axis has length zero, and [denormalize]
    raises ValueError on it (the arg-max of an empty row). *)
Theorem discrete_empty_vocabulary (f : t) (x : value)
    (Hempty : choices f = []) :
  exists y,
    normalize f x = Ok y
    /\ shape_last y = Ok 0%nat
    /\ denormalize f y
       = Raise (ValueError "attempt to get argmax of an empty sequence").
Proof.
  unfold normalize, denormalize, Pd.CategoricalDtype. rewrite Hempty.
  cbn [Pd.is_unique bind].
  destruct x as [v | v vs]; cbn [is_sequence negb];
    eexists; (split; [reflexivity | split; reflexivity]).
Qed.

Lemma discrete_empty_vocabulary_witness :
  exists y,
    normalize empty_vocab (Scalar "a") = Ok y
    /\ shape_last y = Ok 0%nat
    /\ denormalize empty_vocab y
       = Raise (ValueError "attempt to get argmax of an empty sequence").
Proof. apply (discrete_empty_vocabulary empty_vocab (Scalar "a")). reflexivity. Defined.

Lemma row_head {A : Type} (k : nat) (r rest : list A) :
  List.length r = k -> row k (r ++ rest) 0 = r.
Proof.
  intro H. unfold row. cbn [Nat.mul skipn].
  rewrite firstn_app, firstn_all2 by lia.
  replace (k - List.length r)%nat with O by lia.
  cbn [firstn]. apply app_nil_r.
Qed.

Lemma row_tail {A : Type} (k i : nat) (r rest : list A) :
  List.length r = k -> row k (r ++ rest) (S i) = row k rest i.
Proof.
  intro H. unfold row. f_equal.
  rewrite skipn_app, skipn_all2 by (cbn [Nat.mul]; lia).
  cbn [app Nat.mul]. f_equal. lia.
Qed.

Lemma mapM_map {A B C : Type} (h : A -> B) (g : B -> result C) (l : list A) :
  mapM g (map h l) = mapM (fun a => g (h a)) l.
Proof.
  induction l as [| a l IH]; cbn [map mapM]; [reflexivity |].
  now rewrite IH.
Qed.

Lemma mapM_ext {A B : Type} (g h : A -> result B) (l : list A) :
  (forall a, g a = h a) -> mapM g l = mapM h l.
Proof.
  intro H. induction l as [| a l IH]; cbn [mapM]; [reflexivity |].
  now rewrite H, IH.
Qed.

(** Decoding a buffer made of rows, each of which has a known arg-max that
    points at a label. *)
Lemma decode_rows (f : t) {V : Type} (k : nat) (rowf : V -> list npfloat)
    (lblf : V -> string) (outer : list nat) (vals : list V) :
  (forall v, In v vals ->
     List.length (rowf v) = k
     /\ exists c, argmax (rowf v) = Ok c
                  /\ nth_error (choices f) c = Some (lblf v)) ->
  exists idxs,
    mapM (fun i => argmax (row k (List.concat (map rowf vals)) i))
         (seq 0 (List.length vals)) = Ok idxs
    /\ take (choices f) (mk_ndarray outer idxs)
       = Ok (mk_ndarray outer (map lblf vals)).
Proof.
  induction vals as [| v vals IH]; intro H.
  - exists []. split; reflexivity.
  - destruct (H v (or_introl eq_refl)) as (Hlen & c & Hc & Hlbl).
    destruct IH as (idxs & Hidx & Htake);
      [intros w Hw; apply H; now right |].
    exists (c :: idxs). cbn [List.length seq map List.concat mapM]. split.
    + rewrite row_head by exact Hlen. rewrite Hc. cbn [bind].
      rewrite <- seq_shift, mapM_map.
      rewrite (mapM_ext _
                 (fun i => argmax (row k (List.concat (map rowf vals)) i)))
        by (intro i; now rewrite row_tail).
      now rewrite Hidx.
    + unfold take in *. cbn [data shape mapM] in *. rewrite Hlbl.
      cbn [bind].
      destruct (mapM _ idxs) as [ls | e]; cbn [bind] in *;
        [| discriminate Htake].
      injection Htake as ->. reflexivity.
Qed.

Lemma denormalize_rows (f : t) {V : Type} (k : nat)
    (rowf : V -> list npfloat) (lblf : V -> string) (outer : list nat)
    (vals : list V) :
  (0 < k)%nat -> size_of outer = List.length vals ->
  (forall v, In v vals ->
     List.length (rowf v) = k
     /\ exists c, argmax (rowf v) = Ok c
                  /\ nth_error (choices f) c = Some (lblf v)) ->
  denormalize f (mk_ndarray (outer ++ [k]) (List.concat (map rowf vals)))
  = Ok (mk_ndarray outer (map lblf vals)).
Proof.
  intros Hk Hsize H.
  destruct (decode_rows f k rowf lblf outer vals H) as (idxs & Hidx & Htake).
  unfold denormalize, argmax_last_axis. cbn [shape data].
  rewrite shape_cases, last_last, removelast_last.
  replace (Nat.eqb k 0) with false by (symmetry; apply Nat.eqb_neq; lia).
  rewrite Hsize, Hidx. cbn [bind]. exact Htake.
Qed.

Lemma one_hot_row_entry (cats : list string) (v : string) (j : nat)
    (u : npfloat) :
  nth_error (one_hot_row cats v) j = Some u ->
  (u = Fin 1%Qc /\ nth_error cats j = Some v) \/ u = Fin 0%Qc.
Proof.
  unfold one_hot_row. rewrite nth_error_map.
  destruct (nth_error cats j) as [c |]; cbn [option_map]; [| discriminate].
  destruct (String.eqb c v) eqn:E; intro H; injection H as <-.
  - left. apply String.eqb_eq in E. now subst c.
  - now right.
Qed.

(** The arg-max of the one-hot row of a known label is the position of the
    label. *)
Lemma argmax_one_hot_row (cats : list string) (v : string) :
  In v cats ->
  exists c, argmax (one_hot_row cats v) = Ok c /\ nth_error cats c = Some v.
Proof.
  intro Hin. destruct (In_nth_error _ _ Hin) as [c0 Hc0].
  assert (Hrow : nth_error (one_hot_row cats v) c0 = Some (Fin 1%Qc)).
  { unfold one_hot_row. rewrite nth_error_map, Hc0. cbn [option_map].
    now rewrite String.eqb_refl. }
  destruct (argmax_spec (one_hot_row cats v)) as (c & Hc & u & Hu & Hmax & _).
  { intro E. rewrite E in Hrow. destruct c0; discriminate Hrow. }
  exists c. split; [exact Hc |].
  specialize (Hmax c0 _ Hrow).
  destruct (one_hot_row_entry _ _ _ _ Hu) as [[_ Hv] | ->]; [exact Hv |].
  discriminate Hmax.
Qed.

(** X10. Round trip of DiscreteField on known labels: with a vocabulary of
    distinct labels, [denormalize (normalize x)] gives back the label, or
    the sequence of labels, when each of them is in the vocabulary. *)
Theorem discrete_round_trip (f : t) (x : value)
    (Hdistinct : NoDup (choices f))
    (Hknown : Forall (fun v => In v (choices f)) (values x)) :
  exists y,
    normalize f x = Ok y
    /\ denormalize f y
       = Ok (mk_ndarray
               (match x with
                | Scalar _ => []
                | Seq _ vs => [S (List.length vs)]
                end)
               (values x)).
Proof.
  eexists. split; [now apply discrete_normalize_one_hot_nf |].
  rewrite <- (map_id (values x)) at 2.
  pose proof (proj1 (Forall_forall _ _) Hknown) as Hall.
  assert (Hk : (0 < List.length (choices f))%nat).
  { destruct x as [v | v vs]; specialize (Hall v (or_introl eq_refl));
      destruct (choices f); [destruct Hall | cbn; lia | destruct Hall | cbn; lia]. }
  assert (Hrows : forall v, In v (values x) ->
            List.length (one_hot_row (choices f) v) = List.length (choices f)
            /\ exists c, argmax (one_hot_row (choices f) v) = Ok c
                         /\ nth_error (choices f) c = Some (id v)).
  { intros v Hv. split; [apply one_hot_row_length |].
    apply argmax_one_hot_row. now apply Hall. }
  destruct x as [v | v vs].
  - apply (denormalize_rows f _ _ id [] [v]); try assumption. reflexivity.
  - apply (denormalize_rows f _ _ id [S (List.length vs)] (v :: vs));
      try assumption.
    cbn [size_of fold_right List.length]. lia.
Qed.

Lemma discrete_round_trip_witness :
  exists y,
    normalize abc (Seq "c" ["a"; "c"]) = Ok y
    /\ denormalize abc y = Ok (mk_ndarray [3%nat] ["c"; "a"; "c"]).
Proof.
  apply (discrete_round_trip abc (Seq "c" ["a"; "c"])).
  - repeat constructor; cbn; intuition discriminate.
  - repeat constructor; cbn; tauto.
Defined.

(** X11. What an unknown label decodes to: with a vocabulary of distinct
    labels that is not empty, a label outside it is encoded as a row of
    zeros, and [denormalize] of that row is the first label of the
    vocabulary. *)
Theorem discrete_unknown_decodes_to_first (f : t) (x c0 : string)
    (rest : list string)
    (Hdistinct : NoDup (choices f))
    (Hfirst : choices f = c0 :: rest)
    (Hunknown : ~ In x (choices f)) :
  exists y,
    normalize f (Scalar x) = Ok y
    /\ denormalize f y = Ok (mk_ndarray [] [c0]).
Proof.
  eexists. split; [now apply discrete_normalize_one_hot_nf |].
  apply (denormalize_rows f _ _ (fun _ => c0) [] [x]).
  - rewrite Hfirst. cbn. lia.
  - reflexivity.
  - intros v [<- | []]. split; [apply one_hot_row_length |].
    rewrite one_hot_row_unknown by exact Hunknown.
    destruct (argmax_spec (repeat (Fin 0%Qc) (List.length (choices f))))
      as (c & Hc & Harg).
    { rewrite Hfirst. discriminate. }
    exists c. split; [exact Hc |].
    apply is_argmax_constant in Harg. subst c. now rewrite Hfirst.
Qed.

Lemma discrete_unknown_decodes_to_first_witness :
  exists y,
    normalize abc (Scalar "z") = Ok y
    /\ denormalize abc y = Ok (mk_ndarray [] ["a"]).
Proof.
  apply (discrete_unknown_decodes_to_first abc "z" "a" ["b"; "c"]).
  - repeat constructor; cbn; intuition discriminate.
  - reflexivity.
  - cbn. intuition discriminate.
Defined.

(** X14. Whenever [normalize] returns, the trailing dimension of the
    result is the width that [getOutputType] announces, [len(choices)]. *)
Theorem discrete_width_matches_descriptor (f : t) (x : value)
    (y : ndarray npfloat)
    (Hret : normalize f x = Ok y) :
  exists k,
    shape_last y = Ok k
    /\ Z.of_nat k = dim (getOutputType f)
    /\ Z.of_nat k = dim_x f
    /\ type_ (getOutputType f) = DISCRETE.
Proof.
  assert (Hd : NoDup (choices f)).
  { unfold normalize, Pd.CategoricalDtype in Hret.
    destruct (Pd.is_unique (choices f)) eqn:E; [| discriminate Hret].
    now apply is_unique_true_NoDup. }
  rewrite discrete_normalize_one_hot_nf in Hret by exact Hd.
  injection Hret as <-. exists (List.length (choices f)).
  destruct x; repeat split.
Qed.

Lemma discrete_width_matches_descriptor_witness :
  exists k,
    shape_last (mk_ndarray [3%nat] [Fin 0%Qc; Fin 1%Qc; Fin 0%Qc]) = Ok k
    /\ Z.of_nat k = dim (getOutputType abc).
Proof.
  destruct (discrete_width_matches_descriptor abc (Scalar "b")
              (mk_ndarray [3%nat] [Fin 0%Qc; Fin 1%Qc; Fin 0%Qc]) eq_refl)
    as (k & Hk & Hdim & _).
  exists k. split; assumption.
Defined.

End DiscreteMore.

(** ** BitField: decoding, failures, inverses *)

Section BitMore.

Import BitField.

Lemma append_snoc (acc : string) (c : ascii) (s : string) :
  ((acc ++ String c EmptyString) ++ s)%string = (acc ++ String c s)%string.
Proof. induction acc as [| a acc IH]; cbn; congruence. Qed.

Lemma argmax_pair (a b : npfloat) :
  argmax [a; b] = Ok (Nat.b2n (pair_bit a b)).
Proof.
  unfold argmax, pair_bit, fge_np. cbn [argmax_from].
  destruct (is_nan a), (fle b a); reflexivity.
Qed.

Lemma pair_bits_length (n : nat) (l : list npfloat) :
  List.length l = (2 * n)%nat -> List.length (pair_bits l) = n.
Proof.
  revert l. induction n as [| n IH]; intros l H.
  - destruct l; [reflexivity | discriminate H].
  - destruct l as [| a [| b r]]; cbn [List.length] in H; try lia.
    cbn [pair_bits List.length]. f_equal. apply IH. lia.
Qed.

Lemma pair_bits_onehot (bs : list bool) : pair_bits (flat_map onehot bs) = bs.
Proof.
  induction bs as [| b bs IH]; [reflexivity |].
  destruct b; cbn [flat_map onehot app pair_bits]; now rewrite IH.
Qed.

Lemma slice_at {A : Type} (pre : list A) (a b : A) (suf : list A) (k : nat) :
  List.length pre = (2 * k)%nat ->
  slice (pre ++ a :: b :: suf) (2 * Z.of_nat k) (2 * (Z.of_nat k + 1))
  = [a; b].
Proof.
  intro H. unfold slice.
  replace (Z.to_nat (2 * Z.of_nat k)) with (List.length pre + 0)%nat by lia.
  rewrite skipn_app, skipn_all2 by lia.
  replace (List.length pre + 0 - List.length pre)%nat with O by lia.
  replace (Z.to_nat (2 * (Z.of_nat k + 1) - 2 * Z.of_nat k)) with 2%nat
    by lia.
  reflexivity.
Qed.

(** The loop of [denormalize] reads one bit off each aligned pair. *)
Lemma denormalize_loop_pairs (m k : nat) (pre suf : list npfloat)
    (acc : string) :
  List.length pre = (2 * k)%nat -> List.length suf = (2 * m)%nat ->
  denormalize_loop (pre ++ suf) acc (map Z.of_nat (seq k m))
  = Ok (acc ++ str_of_bits (pair_bits suf)).
Proof.
  revert k pre suf acc. induction m as [| m IH]; intros k pre suf acc Hp Hs.
  - destruct suf; [| discriminate Hs]. cbn. f_equal.
    clear. induction acc; cbn; congruence.
  - destruct suf as [| a [| b r]]; cbn [List.length] in Hs; try lia.
    cbn [seq map denormalize_loop]. unfold denormalize_step.
    rewrite slice_at by exact Hp. rewrite argmax_pair. cbn [bind].
    replace (pre ++ a :: b :: r)%list with ((pre ++ [a; b]) ++ r)%list
      by (rewrite <- app_assoc; reflexivity).
    cbn [pair_bits str_of_bits].
    destruct (pair_bit a b); cbn [Nat.b2n Nat.eqb bind char_of_bit];
      rewrite IH by (rewrite ?length_app; cbn [List.length]; lia);
      now rewrite append_snoc.
Qed.

Lemma bits_val_snoc (l : list bool) (b : bool) :
  bits_val 0 (l ++ [b]) = 2 * bits_val 0 l + Z.b2z b.
Proof. rewrite bits_val_app. reflexivity. Qed.

Lemma bits_val_bound (bs : list bool) :
  0 <= bits_val 0 bs < 2 ^ Z.of_nat (List.length bs).
Proof.
  induction bs as [| b bs IH] using rev_ind.
  - cbn. lia.
  - rewrite bits_val_snoc, length_app. cbn [List.length].
    replace (Z.of_nat (List.length bs + 1))
      with (Z.succ (Z.of_nat (List.length bs))) by lia.
    rewrite Z.pow_succ_r by lia. destruct b; cbn [Z.b2z]; lia.
Qed.

Lemma bits_val_inj (l1 l2 : list bool) :
  List.length l1 = List.length l2 ->
  bits_val 0 l1 = bits_val 0 l2 -> l1 = l2.
Proof.
  revert l2. induction l1 as [| b1 l1 IH] using rev_ind; intros l2 Hlen Hval.
  - destruct l2; [reflexivity | discriminate Hlen].
  - destruct l2 as [| b2 l2 _] using rev_ind.
    + rewrite length_app in Hlen. cbn in Hlen. lia.
    + rewrite !length_app in Hlen. cbn [List.length] in Hlen.
      rewrite !bits_val_snoc in Hval.
      assert (Hb : b1 = b2) by (destruct b1, b2; cbn [Z.b2z] in Hval; lia || reflexivity).
      subst b2. f_equal. apply IH; lia.
Qed.

(** Encoding the value of [n] bits, [n >= 1], gives the bits back. *)
Lemma padded_bits_val (n : Z) (bs : list bool) :
  1 <= n -> Z.of_nat (List.length bs) = n ->
  padded n (bits_val 0 bs) = bs.
Proof.
  intros Hn Hlen. pose proof (bits_val_bound bs) as Hb. rewrite Hlen in Hb.
  apply bits_val_inj.
  - apply Nat2Z.inj. rewrite padded_length by lia.
    pose proof (digits_fit _ _ Hn Hb). lia.
  - apply bits_val_padded. lia.
Qed.

(** What [denormalize] returns on a list of the right length. *)
Lemma denormalize_pairs (f : t) (l : list npfloat) :
  1 <= num_bits f -> Z.of_nat (List.length l) = 2 * num_bits f ->
  denormalize f (PyList l) = Ok (bits_val 0 (pair_bits l)).
Proof.
  intros Hn Hlen. unfold denormalize.
  rewrite (proj2 (Z.eqb_eq _ _) Hlen). cbn [negb]. unfold Py.range.
  pose proof (denormalize_loop_pairs (Z.to_nat (num_bits f)) 0 [] l "0b")
    as Hloop.
  cbn [app] in Hloop. rewrite Hloop by (cbn [List.length]; lia).
  cbn [bind]. apply int_base2_bits.
  intro E. apply (f_equal (@List.length bool)) in E.
  rewrite (pair_bits_length (Z.to_nat (num_bits f))) in E by lia.
  cbn in E. lia.
Qed.

(** X17. Decoding arbitrary scores: for a field of at least one bit and a
    list of [2 * num_bits] floats, whatever they are, [denormalize] returns
    the number whose binary digits, most significant first, are the bits
    of the pairs (1 when the second entry ranks strictly above the first);
    the result lies in [0, 2^num_bits). *)
Theorem bit_denormalize_decode (f : t) (l : list npfloat)
    (Hbits : 1 <= num_bits f)
    (Hlen : Z.of_nat (List.length l) = 2 * num_bits f) :
  denormalize f (PyList l) = Ok (bits_val 0 (pair_bits l))
  /\ Z.of_nat (List.length (pair_bits l)) = num_bits f
  /\ 0 <= bits_val 0 (pair_bits l) < 2 ^ num_bits f.
Proof.
  assert (Hp : Z.of_nat (List.length (pair_bits l)) = num_bits f).
  { rewrite (pair_bits_length (Z.to_nat (num_bits f))) by lia. lia. }
  split; [now apply denormalize_pairs | split; [exact Hp |]].
  rewrite <- Hp. apply bits_val_bound.
Qed.

Lemma bit_denormalize_decode_witness :
  denormalize bit3
    (PyList [Fin (Q2Qc (1 # 5)); Fin (Q2Qc (4 # 5)); NaN; Fin 1%Qc;
             Fin (Q2Qc (1 # 2)); Fin (Q2Qc (1 # 2))])
  = Ok 4.
Proof.
  destruct (bit_denormalize_decode bit3
              [Fin (Q2Qc (1 # 5)); Fin (Q2Qc (4 # 5)); NaN; Fin 1%Qc;
               Fin (Q2Qc (1 # 2)); Fin (Q2Qc (1 # 2))]) as (Hd & _).
  - cbn. lia.
  - reflexivity.
  - exact Hd.
Defined.

(** X18. [denormalize] returns exactly when it is given a Python list of
    length [2 * num_bits] and the field has at least one bit; a field of
    zero bits can decode nothing, not even the empty list. *)
Theorem bit_denormalize_returns_iff (f : t) (x : pyobj) :
  (exists v, denormalize f x = Ok v)
  <-> (exists l, x = PyList l
                 /\ Z.of_nat (List.length l) = 2 * num_bits f
                 /\ 1 <= num_bits f).
Proof.
  split.
  - intros [v Hv]. destruct x as [l | a]; [| discriminate Hv].
    exists l. split; [reflexivity |].
    unfold denormalize in Hv.
    destruct (Z.of_nat (List.length l) =? 2 * num_bits f) eqn:E;
      cbn [negb] in Hv; [| discriminate Hv].
    apply Z.eqb_eq in E. split; [exact E |].
    destruct (Z_lt_le_dec (num_bits f) 1) as [Hlt | Hge]; [| exact Hge].
    exfalso. assert (H0 : num_bits f = 0) by lia.
    rewrite H0 in Hv. discriminate Hv.
  - intros (l & -> & Hlen & Hn). eexists. now apply denormalize_pairs.
Qed.

(** X19. Encoding what was decoded sharpens the scores: for a field of at
    least one bit and any list of [2 * num_bits] floats, [normalize] of the
    decoded number is the list of exact one-hot pairs of the decoded bits,
    and nothing is printed. *)
Theorem bit_normalize_denormalize (f : t) (l : list npfloat)
    (Hbits : 1 <= num_bits f)
    (Hlen : Z.of_nat (List.length l) = 2 * num_bits f) :
  exists d,
    denormalize f (PyList l) = Ok d
    /\ normalize f d = Ok (flat_map onehot (pair_bits l), []).
Proof.
  exists (bits_val 0 (pair_bits l)).
  split; [now apply denormalize_pairs |].
  rewrite normalize_nonneg by apply bits_val_bound.
  rewrite padded_bits_val; [reflexivity | exact Hbits |].
  rewrite (pair_bits_length (Z.to_nat (num_bits f))) by lia. lia.
Qed.

Lemma bit_normalize_denormalize_witness :
  exists d,
    denormalize bit3
      (PyList [Fin (Q2Qc (1 # 5)); Fin (Q2Qc (4 # 5)); NaN; Fin 1%Qc;
               Fin (Q2Qc (1 # 2)); Fin (Q2Qc (1 # 2))]) = Ok d
    /\ normalize bit3 d
       = Ok ([Fin 0%Qc; Fin 1%Qc; Fin 1%Qc; Fin 0%Qc; Fin 1%Qc; Fin 0%Qc],
             []).
Proof.
  apply (bit_normalize_denormalize bit3
           [Fin (Q2Qc (1 # 5)); Fin (Q2Qc (4 # 5)); NaN; Fin 1%Qc;
            Fin (Q2Qc (1 # 2)); Fin (Q2Qc (1 # 2))]).
  - cbn. lia.
  - reflexivity.
Defined.

(** X20. Round trip from the encoded side: a list made of [num_bits]
    exact one-hot pairs, [num_bits >= 1], decodes to a number that
    [normalize] encodes as that same list. *)
Theorem bit_one_hot_round_trip (f : t) (bs : list bool)
    (Hbits : 1 <= num_bits f)
    (Hlen : Z.of_nat (List.length bs) = num_bits f) :
  exists d,
    denormalize f (PyList (flat_map onehot bs)) = Ok d
    /\ 0 <= d < 2 ^ num_bits f
    /\ normalize f d = Ok (flat_map onehot bs, []).
Proof.
  exists (bits_val 0 bs). split; [| split].
  - rewrite denormalize_pairs, pair_bits_onehot; try assumption;
      [reflexivity |].
    rewrite flat_map_onehot_length. lia.
  - rewrite <- Hlen. apply bits_val_bound.
  - rewrite normalize_nonneg by apply bits_val_bound.
    now rewrite padded_bits_val.
Qed.

Lemma bit_one_hot_round_trip_witness :
  exists d,
    denormalize bit3
      (PyList [Fin 0%Qc; Fin 1%Qc; Fin 1%Qc; Fin 0%Qc; Fin 0%Qc; Fin 1%Qc])
    = Ok d
    /\ 0 <= d < 8
    /\ normalize bit3 d
       = Ok ([Fin 0%Qc; Fin 1%Qc; Fin 1%Qc; Fin 0%Qc; Fin 0%Qc; Fin 1%Qc],
             []).
Proof.
  apply (bit_one_hot_round_trip bit3 [true; false; true]).
  - cbn. lia.
  - reflexivity.
Defined.

Lemma zfill_no_sign (rest : string) (n : Z) :
  exists k, Py.zfill (String "b" rest) n
            = (Py.zeros k ++ String "b" rest)%string.
Proof.
  unfold Py.zfill.
  destruct (n <=? Z.of_nat (String.length (String "b" rest))).
  - now exists O.
  - cbn [Ascii.eqb Bool.eqb orb]. eauto.
Qed.

Lemma int_of_chars_letter (k : nat) (rest : string) :
  mapM Py.int_of_char (Py.chars (Py.zeros k ++ String "b" rest))
  = Raise (ValueError "invalid literal for int() with base 10: 'b'").
Proof.
  induction k as [| k IH].
  - reflexivity.
  - cbn [Py.zeros String.append Py.chars list_ascii_of_string mapM].
    fold (Py.chars (Py.zeros k ++ String "b" rest)).
    rewrite IH. reflexivity.
Qed.

(** X15. A negative number cannot be encoded: [bin] prints it as
    [-0b...], the slice keeps the letter [b], and [normalize] raises the
    ValueError of [int('b')], for every [num_bits]. *)
Theorem bit_normalize_negative (f : t) (d : Z) (Hneg : d < 0) :
  normalize f d
  = Raise (ValueError "invalid literal for int() with base 10: 'b'").
Proof.
  destruct d as [| p | p]; try lia.
  unfold normalize. cbn [Py.bin String.append Py.drop].
  destruct (zfill_no_sign (Py.bin_digits p) (num_bits f)) as [k ->].
  now rewrite int_of_chars_letter.
Qed.

Lemma bit_normalize_negative_witness :
  normalize bit4 (-5)
  = Raise (ValueError "invalid literal for int() with base 10: 'b'").
Proof. apply (bit_normalize_negative bit4 (-5)). lia. Defined.

(** X16. On every number that is not negative [normalize] returns, for
    every [num_bits]: the list has [2 * max(num_bits, log2 d + 1)] entries,
    each aligned pair is [[1.0, 0.0]] or [[0.0, 1.0]], and nothing is
    printed; with X15, the branch that prints is never taken. *)
Theorem bit_normalize_shape (f : t) (d : Z) (Hd : 0 <= d) :
  exists bits,
    normalize f d = Ok (bits, [])
    /\ Z.of_nat (List.length bits) = 2 * Z.max (num_bits f) (Z.log2 d + 1)
    /\ forall i, 0 <= i < Z.max (num_bits f) (Z.log2 d + 1) ->
         slice bits (2 * i) (2 * (i + 1)) = [Fin 1%Qc; Fin 0%Qc]
         \/ slice bits (2 * i) (2 * (i + 1)) = [Fin 0%Qc; Fin 1%Qc].
Proof.
  exists (flat_map onehot (padded (num_bits f) d)).
  pose proof (padded_length (num_bits f) d Hd) as Hlen.
  split; [now apply normalize_nonneg | split].
  - rewrite flat_map_onehot_length. lia.
  - intros i Hi.
    destruct (slice_pair (padded (num_bits f) d) i) as [b Hb]; [lia |].
    rewrite Hb. destruct b; [right | left]; reflexivity.
Qed.

Lemma bit_normalize_shape_witness :
  exists bits,
    normalize bit3 9 = Ok (bits, [])
    /\ Z.of_nat (List.length bits) = 8.
Proof.
  destruct (bit_normalize_shape bit3 9) as (bits & Hn & Hlen & _).
  - lia.
  - exists bits. split; [exact Hn | exact Hlen].
Defined.

(** X21. The overflow is caught when decoding: for [num_bits >= 0] and
    [d >= 2^num_bits], [normalize] returns a list that [denormalize]
    refuses with the AssertionError of its length check. *)
Theorem bit_overflow_rejected (f : t) (d : Z)
    (Hbits : 0 <= num_bits f)
    (Hd : 2 ^ num_bits f <= d) :
  exists bits out,
    normalize f d = Ok (bits, out)
    /\ denormalize f (PyList bits)
       = Raise (AssertionError "length of bit array is wrong!").
Proof.
  assert (Hpos : 0 < 2 ^ num_bits f) by (apply Z.pow_pos_nonneg; lia).
  exists (flat_map onehot (padded (num_bits f) d)), [].
  split; [apply normalize_nonneg; lia |].
  unfold denormalize. rewrite flat_map_onehot_length.
  pose proof (padded_length (num_bits f) d ltac:(lia)) as Hlen.
  pose proof (digits_overflow _ _ Hbits Hd) as Hover.
  replace (Z.of_nat (2 * List.length (padded (num_bits f) d))
           =? 2 * num_bits f) with false
    by (symmetry; apply Z.eqb_neq; lia).
  reflexivity.
Qed.

Lemma bit_overflow_rejected_witness :
  exists bits out,
    normalize bit3 8 = Ok (bits, out)
    /\ denormalize bit3 (PyList bits)
       = Raise (AssertionError "length of bit array is wrong!").
Proof.
  apply (bit_overflow_rejected bit3 8).
  - cbn. lia.
  - cbn. lia.
Defined.

(** X22. [normalize] never sends two different numbers to the same list,
    inside the range of the field or beyond it. *)
Theorem bit_normalize_injective (f : t) (d1 d2 : Z)
    (H1 : 0 <= d1) (H2 : 0 <= d2)
    (Hne : d1 <> d2) :
  normalize f d1 <> normalize f d2.
Proof.
  intro Heq. apply Hne.
  rewrite !normalize_nonneg in Heq by assumption.
  injection Heq as Heq.
  apply (f_equal pair_bits) in Heq. rewrite !pair_bits_onehot in Heq.
  rewrite <- (bits_val_padded (num_bits f) d1 H1).
  rewrite <- (bits_val_padded (num_bits f) d2 H2).
  now rewrite Heq.
Qed.

Lemma bit_normalize_injective_witness :
  normalize bit3 5 <> normalize bit3 13.
Proof. apply (bit_normalize_injective bit3 5 13); lia. Defined.

Lemma sum_repeat (o : Output) (n : nat) :
  fold_right Z.add 0 (map dim (repeat o n)) = Z.of_nat n * dim o.
Proof.
  induction n as [| n IH]; [reflexivity |].
  cbn [repeat map fold_right]. rewrite IH. lia.
Qed.

(** X23. The widths that [getOutputType] announces add up to [dim_x], the
    length of the list that [normalize] returns for a number of the range:
    for [num_bits >= 1] and [0 <= d < 2^num_bits]. *)
Theorem bit_width_matches_descriptor (f : t) (d : Z)
    (Hbits : 1 <= num_bits f)
    (Hd : 0 <= d < 2 ^ num_bits f) :
  fold_right Z.add 0 (map dim (getOutputType f)) = dim_x f
  /\ exists bits out,
       normalize f d = Ok (bits, out)
       /\ Z.of_nat (List.length bits) = dim_x f.
Proof.
  split.
  - unfold getOutputType, dim_x.
    rewrite append_loop, range_length. cbn [app].
    rewrite sum_repeat. cbn [dim]. lia.
  - exists (flat_map onehot (padded (num_bits f) d)), [].
    split; [apply normalize_nonneg; lia |].
    rewrite flat_map_onehot_length. unfold dim_x.
    pose proof (padded_length (num_bits f) d ltac:(lia)).
    pose proof (digits_fit _ _ Hbits Hd). lia.
Qed.

Lemma bit_width_matches_descriptor_witness :
  fold_right Z.add 0 (map dim (getOutputType bit4)) = 8
  /\ exists bits out,
       normalize bit4 5 = Ok (bits, out)
       /\ Z.of_nat (List.length bits) = 8.
Proof.
  apply (bit_width_matches_descriptor bit4 5).
  - cbn. lia.
  - cbn. lia.
Defined.

End BitMore.


(** * ContinuousField on binary64 *)

Section Float64.

Import PrimFloat SpecFloat FloatOps FloatAxioms.
Import ContinuousField64.

(** ** The binary64 operations the boundary needs

    Proved on the specification of the operations ([SpecFloat]), to which
    the primitive ones are tied by the library's [FloatAxioms]. *)

















(** ** The boundary values *)





(** The examples of the specification, range 0..10, and two entries
    outside the range. *)
Example boundary_float64 :
  normalize (unit64 ZERO_ONE) (mk_ndarray [4%nat; 1%nat] [0; 10; 15; -5]%float)
  = Ok (mk_ndarray [4%nat; 1%nat] [0; 1; 1.5; -0.5]%float)
  /\ normalize (unit64 MINUSONE_ONE)
       (mk_ndarray [4%nat; 1%nat] [0; 10; 15; -5]%float)
     = Ok (mk_ndarray [4%nat; 1%nat] [-1; 1; 2; -2]%float).
Proof. split; reflexivity. Qed.


(** ** The round trip *)


End Float64.
